(** * WebSpeechSynthesis: the speech-to-audio bridge

    A shallow embedding of [src/components/ThreeD/audio/WebSpeechSynthesis.ts].

    The class is event driven: [generateSpeech] registers callbacks on an
    utterance, on a [Tone.Player], on the speech engine and on the promise of
    [audioContext.resume()], and returns a promise that those callbacks settle
    later.  The embedding is a state machine over a [World]: the private
    fields of the instance, the objects they refer to (kept in stores and
    named by index, because the callbacks read [this.player] and
    [this.utterance] at the time they run, not at the time they were made),
    and the promises handed to callers.  A method call or a callback is a
    function on worlds; a run of the program is a list of [Step]s.

    Numbers: a JS number is an IEEE double.  The embedding computes with exact
    rationals ([Q]); NaN and the infinities are outside the model.
    Strings: the characters of a [string] stand for the UTF-16 code units of
    a JS string, so [String.length] is [text.length]. *)

From Stdlib Require Import QArith Qminmax.
From stdpp Require Import base list strings gmap.

Local Open Scope string_scope.
Local Open Scope list_scope.

(** ** Values *)

(** [new Error(message)], and the TypeError of a member access on [null]. *)
Inductive JsError :=
| Error (message : string)
| TypeError_null.

Definition EnvironmentUnavailable : JsError :=
  Error "Speech generation is not available on the server side.".
Definition AlreadyInProgress : JsError :=
  Error "Speech generation already in progress".
Definition ComponentsUninitialized : JsError :=
  Error "Speech synthesis components are not initialized.".
Definition Cancelled : JsError :=
  Error "Speech generation was cancelled".
Definition SynthesisFailed (code : string) : JsError :=
  Error ("Speech synthesis failed: " +:+ code).
Definition PlayerUninitialized : JsError :=
  Error "Player or analyser not initialized.".
Definition RoutingFailed : JsError :=
  Error "Failed to set up audio routing for SpeechSynthesis.".

(** How a synchronous method call completes. *)
Inductive Completion (A : Type) :=
| Normal (v : A)
| Throw (e : JsError).
Arguments Normal {A} v.
Arguments Throw {A} e.

Definition Voice := string.

(** The object [generateSpeech] resolves with; [player] and [analyser] are
    references (indices into the stores of the world). *)
Record SpeechResult := mkResult {
  r_player : nat;
  r_analyser : nat;
  r_duration : Q
}.

(** A promise settles once; later calls of [resolve] or [reject] do nothing. *)
Inductive Settlement :=
| Pending
| Resolved (r : SpeechResult)
| Rejected (e : JsError).

(** ** Objects *)

(** A [SpeechSynthesisUtterance].  [onend] and [onerror] are closures over the
    [reject] of the promise of the call that made the utterance: [u_settles]
    is that promise. *)
Record Utterance := mkUtterance {
  u_text : string;
  u_voice : option Voice;
  u_rate : Q;
  u_settles : nat
}.

(** A [Tone.Player].  Its [onload] closes over [text], [resolve] and [reject]
    of the call that made it. *)
Record Player := mkPlayer {
  playbackRate : Q;
  loop : bool;
  connected : option nat;     (* the analyser it was connected to *)
  toDestination : bool;
  stops : nat;                (* calls of stop() *)
  seeks : list Q;             (* calls of seek(time) *)
  p_disposed : bool;
  onload_text : string;
  onload_settles : nat
}.

(** The [Tone.Analyser('waveform', 256)]. *)
Record Analyser := mkAnalyser {
  waveform : list Q;          (* what getValue() returns now *)
  a_disposed : bool
}.

(** [window.speechSynthesis]. *)
Record Synth := mkSynth {
  voices : list Voice;                  (* getVoices() *)
  onvoiceschanged : bool;               (* a handler is installed *)
  spoken : list (nat * option Voice);   (* speak(u), with u.voice at that time *)
  cancels : nat                         (* calls of cancel() *)
}.

Record AudioContext := mkAudioContext {
  closes : nat;               (* calls of close() *)
  resuming : nat              (* then-callbacks of resume() not yet run *)
}.

(** ** The world *)

Record World := mkWorld {
  (* platform *)
  hasWindow : bool;           (* typeof window !== 'undefined' *)
  resumeThrows : bool;        (* audioContext.resume() throws *)
  (* private fields of the instance *)
  synth : option Synth;
  utterance : option nat;
  player : option nat;
  analyser : option nat;
  audioContext : option AudioContext;
  mediaStreamDestination : option unit;
  isGenerating : bool;
  isCancelled : bool;
  (* stores *)
  utterances : list Utterance;
  players : list Player;
  analysers : list Analyser;
  promises : list Settlement
}.

Definition set_synth (v : option Synth) (w : World) : World :=
  mkWorld (hasWindow w) (resumeThrows w) v (utterance w) (player w)
    (analyser w) (audioContext w) (mediaStreamDestination w) (isGenerating w)
    (isCancelled w) (utterances w) (players w) (analysers w) (promises w).
Definition set_utterance (v : option nat) (w : World) : World :=
  mkWorld (hasWindow w) (resumeThrows w) (synth w) v (player w)
    (analyser w) (audioContext w) (mediaStreamDestination w) (isGenerating w)
    (isCancelled w) (utterances w) (players w) (analysers w) (promises w).
Definition set_player (v : option nat) (w : World) : World :=
  mkWorld (hasWindow w) (resumeThrows w) (synth w) (utterance w) v
    (analyser w) (audioContext w) (mediaStreamDestination w) (isGenerating w)
    (isCancelled w) (utterances w) (players w) (analysers w) (promises w).
Definition set_audioContext (v : option AudioContext) (w : World) : World :=
  mkWorld (hasWindow w) (resumeThrows w) (synth w) (utterance w) (player w)
    (analyser w) v (mediaStreamDestination w) (isGenerating w)
    (isCancelled w) (utterances w) (players w) (analysers w) (promises w).
Definition set_isGenerating (v : bool) (w : World) : World :=
  mkWorld (hasWindow w) (resumeThrows w) (synth w) (utterance w) (player w)
    (analyser w) (audioContext w) (mediaStreamDestination w) v
    (isCancelled w) (utterances w) (players w) (analysers w) (promises w).
Definition set_isCancelled (v : bool) (w : World) : World :=
  mkWorld (hasWindow w) (resumeThrows w) (synth w) (utterance w) (player w)
    (analyser w) (audioContext w) (mediaStreamDestination w) (isGenerating w)
    v (utterances w) (players w) (analysers w) (promises w).
Definition set_utterances (v : list Utterance) (w : World) : World :=
  mkWorld (hasWindow w) (resumeThrows w) (synth w) (utterance w) (player w)
    (analyser w) (audioContext w) (mediaStreamDestination w) (isGenerating w)
    (isCancelled w) v (players w) (analysers w) (promises w).
Definition set_players (v : list Player) (w : World) : World :=
  mkWorld (hasWindow w) (resumeThrows w) (synth w) (utterance w) (player w)
    (analyser w) (audioContext w) (mediaStreamDestination w) (isGenerating w)
    (isCancelled w) (utterances w) v (analysers w) (promises w).
Definition set_analysers (v : list Analyser) (w : World) : World :=
  mkWorld (hasWindow w) (resumeThrows w) (synth w) (utterance w) (player w)
    (analyser w) (audioContext w) (mediaStreamDestination w) (isGenerating w)
    (isCancelled w) (utterances w) (players w) v (promises w).
Definition set_promises (v : list Settlement) (w : World) : World :=
  mkWorld (hasWindow w) (resumeThrows w) (synth w) (utterance w) (player w)
    (analyser w) (audioContext w) (mediaStreamDestination w) (isGenerating w)
    (isCancelled w) (utterances w) (players w) (analysers w) v.

(** ** Promises *)

(** [new Promise(...)]: a fresh pending promise, or the already rejected
    promise an [async] function returns when its body throws. *)
Definition new_promise (s : Settlement) (w : World) : World * nat :=
  (set_promises (promises w ++ [s]) w, length (promises w)).

(** [resolve] and [reject] act on a pending promise only. *)
Definition settle_with (s : Settlement) (old : Settlement) : Settlement :=
  match old with
  | Pending => s
  | _ => old
  end.

Definition settle (p : nat) (s : Settlement) (w : World) : World :=
  set_promises (alter (settle_with s) p (promises w)) w.

Definition resolve (p : nat) (r : SpeechResult) : World -> World :=
  settle p (Resolved r).
Definition reject (p : nat) (e : JsError) : World -> World :=
  settle p (Rejected e).

Definition settled (s : Settlement) : bool :=
  match s with
  | Pending => false
  | _ => true
  end.

(** ** The speech engine *)

(** [synth.speak(utterance)], with [utterance] a reference. *)
Definition speak (u : nat) (w : World) : World :=
  match synth w with
  | Some sy =>
      set_synth
        (Some (mkSynth (voices sy) (onvoiceschanged sy)
                 (spoken sy ++ [(u, (utterances w !! u) ≫= u_voice)])
                 (cancels sy))) w
  | None => w
  end.

Definition set_u_voice (v : option Voice) (u : Utterance) : Utterance :=
  mkUtterance (u_text u) v (u_rate u) (u_settles u).
Definition set_u_rate (r : Q) (u : Utterance) : Utterance :=
  mkUtterance (u_text u) (u_voice u) r (u_settles u).
Definition set_playbackRate (r : Q) (p : Player) : Player :=
  mkPlayer r (loop p) (connected p) (toDestination p) (stops p) (seeks p)
    (p_disposed p) (onload_text p) (onload_settles p).

(** ** The class *)

(** What the constructor finds on the platform.  [window.speechSynthesis] is
    undefined in a browser without speech synthesis; where it exists it has a
    list of voices, possibly still empty. *)
Record Platform := mkPlatform {
  pf_window : bool;
  pf_speechSynthesis : option (list Voice);
  pf_resumeThrows : bool
}.

(** The field initialisers of the class: every handle null, both flags
    false. *)
Definition fresh (pf : Platform) : World :=
  mkWorld (pf_window pf) (pf_resumeThrows pf) None None None None None None
    false false [] [] [] [].

(** [initializeBrowserComponents()]: [synth] is [window.speechSynthesis] as
    the platform has it; the audio context, its media-stream destination and
    a [Tone.Analyser('waveform', 256)], silent so far, are made. *)
Definition initializeBrowserComponents (pf : Platform) (w : World) : World :=
  mkWorld (hasWindow w) (resumeThrows w)
    ((fun vs => mkSynth vs false [] 0) <$> pf_speechSynthesis pf)
    (utterance w) (player w) (Some (length (analysers w)))
    (Some (mkAudioContext 0 0)) (Some tt) (isGenerating w) (isCancelled w)
    (utterances w) (players w)
    (analysers w ++ [mkAnalyser (replicate 256 0%Q) false]) (promises w).

(** [new WebSpeechSynthesis()] *)
Definition construct (pf : Platform) : World :=
  if pf_window pf then initializeBrowserComponents pf (fresh pf) else fresh pf.

(** The module's singleton, [webSpeechSynthesis]. *)
Definition webSpeechSynthesis : Platform -> World := construct.

(** [text.length / 5] *)
Definition estimatedDuration (text : string) : Q :=
  inject_Z (Z.of_nat (String.length text)) / 5.

(** The executor of [new Promise((resolve, reject) => ...)]; [p] is the
    promise being made.  The locals [source] and [dest] are made and not
    used. *)
Definition executor (text : string) (p : nat) (w : World) : World :=
  match synth w, audioContext w, mediaStreamDestination w with
  | Some sy, Some ac, Some _ =>
      (* this.utterance = new SpeechSynthesisUtterance(text), onend, onerror *)
      let u := length (utterances w) in
      let w := set_utterance (Some u)
                 (set_utterances
                    (utterances w ++ [mkUtterance text None 1 p]) w) in
      (* this.player = new Tone.Player({playbackRate: 1, loop: false, onload}) *)
      let pl := length (players w) in
      let w := set_player (Some pl)
                 (set_players
                    (players w ++
                       [mkPlayer 1 false None false 0 [] false text p]) w) in
      (* this.synth.onvoiceschanged = ... *)
      let w := set_synth
                 (Some (mkSynth (voices sy) true (spoken sy) (cancels sy))) w in
      (* try { this.audioContext.resume().then(...) } catch { reject(...) } *)
      if resumeThrows w then reject p RoutingFailed w
      else set_audioContext
             (Some (mkAudioContext (closes ac) (S (resuming ac)))) w
  | _, _, _ => reject p ComponentsUninitialized w
  end.

(** [generateSpeech(text)]: the world after the call and the promise it
    returns.  An [async] function never throws to its caller: a [throw] in
    its body is a rejected promise. *)
Definition generateSpeech (text : string) (w : World) : World * nat :=
  if negb (hasWindow w) then new_promise (Rejected EnvironmentUnavailable) w
  else if isGenerating w then new_promise (Rejected AlreadyInProgress) w
  else
    let w := set_isCancelled false (set_isGenerating true w) in
    let '(w, p) := new_promise Pending w in
    (executor text p w, p).

(** [utterance.onend] of utterance [u] *)
Definition utterance_onend (u : nat) (w : World) : World :=
  match utterances w !! u with
  | Some ut =>
      let w := set_isGenerating false w in
      if isCancelled w then reject (u_settles ut) Cancelled w else w
  | None => w
  end.

(** [utterance.onerror] of utterance [u], with [event.error = code] *)
Definition utterance_onerror (u : nat) (code : string) (w : World) : World :=
  match utterances w !! u with
  | Some ut =>
      let w := set_isGenerating false w in
      reject (u_settles ut) (SynthesisFailed code) w
  | None => w
  end.

Definition connect (a : nat) (p : Player) : Player :=
  mkPlayer (playbackRate p) (loop p) (Some a) (toDestination p) (stops p)
    (seeks p) (p_disposed p) (onload_text p) (onload_settles p).
Definition to_destination (p : Player) : Player :=
  mkPlayer (playbackRate p) (loop p) (connected p) true (stops p)
    (seeks p) (p_disposed p) (onload_text p) (onload_settles p).

(** The [onload] callback of player [pl].  It reads [this.player] and
    [this.analyser] when it runs. *)
Definition player_onload (pl : nat) (w : World) : World :=
  match players w !! pl with
  | Some made =>
      match player w, analyser w with
      | Some x, Some a =>
          let w := set_players (alter (connect a) x (players w)) w in
          let w := set_players (alter to_destination x (players w)) w in
          resolve (onload_settles made)
            (mkResult x a (estimatedDuration (onload_text made))) w
      | _, _ => reject (onload_settles made) PlayerUninitialized w
      end
  | None => w
  end.

(** The engine's voices become [vs] and it fires [voiceschanged]. *)
Definition synth_voiceschanged (vs : list Voice) (w : World) : World :=
  match synth w with
  | Some sy =>
      let w := set_synth
                 (Some (mkSynth vs (onvoiceschanged sy) (spoken sy)
                          (cancels sy))) w in
      if onvoiceschanged sy then
        match vs, utterance w with
        | v0 :: _, Some u =>
            let w := set_utterances
                       (alter (set_u_voice (Some v0)) u (utterances w)) w in
            speak u w
        | _, _ => w
        end
      else w
  | None => w
  end.

(** A [then] callback of [audioContext.resume()] runs. *)
Definition resume_then (w : World) : World :=
  match audioContext w with
  | Some ac =>
      match resuming ac with
      | S n =>
          let w := set_audioContext (Some (mkAudioContext (closes ac) n)) w in
          match utterance w with
          | Some u => speak u w
          | None => w
          end
      | O => w
      end
  | None => w
  end.

(** The signal through the analyser changes. *)
Definition analyser_signal (buf : list Q) (w : World) : World :=
  match analyser w with
  | Some a =>
      set_analysers
        (alter (fun an => mkAnalyser buf (a_disposed an)) a (analysers w)) w
  | None => w
  end.

Definition getPlayer (w : World) : option nat := player w.
Definition getAnalyser (w : World) : option nat := analyser w.

(** [this.player?.seek(time)] *)
Definition seek (time : Q) (w : World) : World * Completion unit :=
  match player w with
  | Some x =>
      (set_players
         (alter (fun p => mkPlayer (playbackRate p) (loop p) (connected p)
                            (toDestination p) (stops p) (seeks p ++ [time])
                            (p_disposed p) (onload_text p) (onload_settles p))
            x (players w)) w, Normal tt)
  | None => (w, Normal tt)
  end.

Definition player_stop (p : Player) : Player :=
  mkPlayer (playbackRate p) (loop p) (connected p) (toDestination p)
    (S (stops p)) (seeks p) (p_disposed p) (onload_text p) (onload_settles p).
Definition player_dispose (p : Player) : Player :=
  mkPlayer (playbackRate p) (loop p) (connected p) (toDestination p)
    (stops p) (seeks p) true (onload_text p) (onload_settles p).

(** The second statement of [stop] and the guarded release of [dispose]. *)
Definition on_player (f : Player -> Player) (w : World) : World :=
  match player w with
  | Some x => set_players (alter f x (players w)) w
  | None => w
  end.

(** [stop()].  [this.synth.cancel()] is not guarded: on a null [synth] the
    call throws after the flag was set. *)
Definition stop (w : World) : World * Completion unit :=
  if isGenerating w then
    let w := set_isCancelled true w in
    match synth w with
    | Some sy =>
        let w := set_synth
                   (Some (mkSynth (voices sy) (onvoiceschanged sy) (spoken sy)
                            (S (cancels sy)))) w in
        (on_player player_stop w, Normal tt)
    | None => (w, Throw TypeError_null)
    end
  else (on_player player_stop w, Normal tt).

(** [getWaveformData()].  The inner [None] is a dangling reference, which
    no run reaches. *)
Definition getWaveformData (w : World) : Completion (list Q) :=
  match analyser w with
  | Some a =>
      match analysers w !! a with
      | Some an => Normal (waveform an)
      | None => Throw TypeError_null
      end
  | None => Throw TypeError_null
  end.

(** [Math.max(lo, Math.min(hi, x))] *)
Definition clamp_rate (lo hi x : Q) : Q := Qmax lo (Qmin hi x).

(** [setPitch(pitch)] *)
Definition setPitch (pitch : Q) (w : World) : World * Completion unit :=
  (on_player (set_playbackRate (clamp_rate (1#2) 2 (1 + pitch / 12))) w,
   Normal tt).

(** [setPlaybackRate(rate)] *)
Definition setPlaybackRate (rate : Q) (w : World) : World * Completion unit :=
  let w := on_player (set_playbackRate (clamp_rate (1#10) 10 rate)) w in
  match utterance w with
  | Some u =>
      (set_utterances
         (alter (set_u_rate (clamp_rate (1#10) 10 rate)) u (utterances w)) w,
       Normal tt)
  | None => (w, Normal tt)
  end.

(** [dispose()] *)
Definition dispose (w : World) : World * Completion unit :=
  match stop w with
  | (w, Throw e) => (w, Throw e)
  | (w, Normal _) =>
      let w := on_player player_dispose w in
      match analyser w with
      | None => (w, Throw TypeError_null)
      | Some a =>
          let w := set_analysers
                     (alter (fun an => mkAnalyser (waveform an) true) a
                        (analysers w)) w in
          match audioContext w with
          | None => (w, Throw TypeError_null)
          | Some ac =>
              (set_audioContext
                 (Some (mkAudioContext (S (closes ac)) (resuming ac))) w,
               Normal tt)
          end
      end
  end.

(** ** Runs *)

(** What can happen to an instance: the caller calls a method, or the
    platform runs one of the callbacks. *)
Inductive Step :=
| CallGenerateSpeech (text : string)
| CallStop
| CallSeek (time : Q)
| CallSetPitch (pitch : Q)
| CallSetPlaybackRate (rate : Q)
| CallDispose
| EvUtteranceEnd (u : nat)
| EvUtteranceError (u : nat) (code : string)
| EvPlayerLoad (pl : nat)
| EvVoicesChanged (vs : list Voice)
| EvResumeThen
| EvSignal (buf : list Q).

Definition step (s : Step) (w : World) : World :=
  match s with
  | CallGenerateSpeech text => fst (generateSpeech text w)
  | CallStop => fst (stop w)
  | CallSeek time => fst (seek time w)
  | CallSetPitch pitch => fst (setPitch pitch w)
  | CallSetPlaybackRate rate => fst (setPlaybackRate rate w)
  | CallDispose => fst (dispose w)
  | EvUtteranceEnd u => utterance_onend u w
  | EvUtteranceError u code => utterance_onerror u code w
  | EvPlayerLoad pl => player_onload pl w
  | EvVoicesChanged vs => synth_voiceschanged vs w
  | EvResumeThen => resume_then w
  | EvSignal buf => analyser_signal buf w
  end.

Definition run (tr : list Step) (w : World) : World :=
  fold_left (fun w s => step s w) tr w.

(** A world some run from the constructor reaches. *)
Definition reachable (w : World) : Prop :=
  exists pf tr, w = run tr (construct pf).

(** ** Concrete platforms and first runs *)

(** A browser with speech synthesis and one voice loaded. *)
Definition browser : Platform := mkPlatform true (Some ["en-US"]) false.
(** A browser that has no [window.speechSynthesis]. *)
Definition mute_browser : Platform := mkPlatform true None false.
(** Server-side rendering: no [window]. *)
Definition server : Platform := mkPlatform false None false.

(** The request of the examples: one call on a fresh instance in a browser. *)
Definition first_request : World :=
  run [CallGenerateSpeech "hi"] (construct browser).

(** A text of fifty characters. *)
Definition fifty : string :=
  "The quick brown fox jumps over the lazy dog again.".

(** ** Predicates of the proofs *)

(** What every reachable world satisfies: the flag is never set without a
    window; an utterance exists only where the three components do; the
    closures kept in the stores settle promises that exist; the references
    of the instance point into the stores. *)
Record wf (w : World) : Prop := mk_wf {
  wf_window : hasWindow w = false -> isGenerating w = false;
  wf_components :
    synth w = None \/ audioContext w = None \/ mediaStreamDestination w = None ->
    utterances w = [];
  wf_players : forall x pl,
    players w !! x = Some pl -> onload_settles pl < length (promises w);
  wf_utterances : forall u ut,
    utterances w !! u = Some ut -> u_settles ut < length (promises w);
  wf_player : forall x, player w = Some x -> x < length (players w);
  wf_analyser : forall a, analyser w = Some a -> a < length (analysers w)
}.

(** Stored closures never change: a player keeps the [text] and the promise
    its [onload] was made with, an utterance the promise of its [onend] and
    [onerror]. *)
Definition same_onload (p q : Player) : Prop :=
  onload_text p = onload_text q /\ onload_settles p = onload_settles q.
Definition same_onend (p q : Utterance) : Prop :=
  u_text p = u_text q /\ u_settles p = u_settles q.

(** The world [w] with one more promise, already settled as [s], in the
    caller's hands. *)
Definition with_promise (s : Settlement) (w : World) : World :=
  set_promises (promises w ++ [s]) w.




(** The [onload] closures that settle promise [p] were made with [text],
    and if [p] is resolved, its duration is the estimate for [text]. *)
Definition made_for (p : nat) (text : string) (w : World) : Prop :=
  p < length (promises w) /\
  (forall x pl, players w !! x = Some pl -> onload_settles pl = p ->
                onload_text pl = text) /\
  (forall r, promises w !! p = Some (Resolved r) ->
             r_duration r = estimatedDuration text).

(** No utterance was ever made, a component is missing, and [isGenerating]
    is set. *)
Definition locked (w : World) : Prop :=
  hasWindow w = true /\ isGenerating w = true /\ utterances w = [] /\
  (synth w = None \/ audioContext w = None \/ mediaStreamDestination w = None).

(** Following the spec's words: [clamp(x, lo, hi)] is [lo] below [lo], [hi]
    above [hi], and [x] in between. *)
Definition clamp_spec (x lo hi : Q) : Q :=
  if Qlt_le_dec x lo then lo else if Qlt_le_dec hi x then hi else x.

(** *** Renumbering of promises *)

(** The list [l] with [x] put in at index [n]. *)
Fixpoint ins {A} (n : nat) (x : A) (l : list A) : list A :=
  match n, l with
  | S n, a :: l => a :: ins n x l
  | _, _ => x :: l
  end.

(** Promise numbers from [n] on move up by one. *)
Definition shift (n q : nat) : nat := if decide (q < n) then q else S q.

Definition shift_utterance (n : nat) (u : Utterance) : Utterance :=
  mkUtterance (u_text u) (u_voice u) (u_rate u) (shift n (u_settles u)).
Definition shift_player (n : nat) (p : Player) : Player :=
  mkPlayer (playbackRate p) (loop p) (connected p) (toDestination p) (stops p)
    (seeks p) (p_disposed p) (onload_text p) (shift n (onload_settles p)).

(** The world [w] as it is when one more promise, settled as [x], was handed
    out as number [n]. *)
Definition renumbered (n : nat) (x : Settlement) (w : World) : World :=
  mkWorld (hasWindow w) (resumeThrows w) (synth w) (utterance w) (player w)
    (analyser w) (audioContext w) (mediaStreamDestination w) (isGenerating w)
    (isCancelled w) (shift_utterance n <$> utterances w)
    (shift_player n <$> players w) (analysers w) (ins n x (promises w)).

(** ** Predicates of the further properties *)

(** The synchronous methods of the control surface. *)
Definition control (s : Step) : bool :=
  match s with
  | CallStop | CallSeek _ | CallSetPitch _ | CallSetPlaybackRate _
  | CallDispose => true
  | _ => false
  end.

(** An instance made where there is no window, and what it has handed out. *)
Definition serverside (w : World) : Prop :=
  hasWindow w = false /\ isGenerating w = false /\ isCancelled w = false /\
  synth w = None /\ utterance w = None /\ player w = None /\
  analyser w = None /\ audioContext w = None /\
  utterances w = [] /\ players w = [] /\
  Forall (fun s => s = Rejected EnvironmentUnavailable) (promises w).

(** What the handles of a reachable world are grounded in: with a window the
    analyser, the context and its destination exist; a player or an
    utterance in the stores means that a request was accepted, so that
    [synth], [player] and [utterance] are set; no promise was rejected by the
    guard of [onload]; and a resolved promise holds the analyser of the
    instance and a player of the store. *)
Record grounded (w : World) : Prop := mk_grounded {
  g_window :
    hasWindow w = true ->
    is_Some (analyser w) /\ is_Some (audioContext w) /\
    is_Some (mediaStreamDestination w);
  g_made :
    players w <> [] \/ utterances w <> [] ->
    hasWindow w = true /\ is_Some (synth w) /\ is_Some (player w) /\
    is_Some (utterance w);
  g_guard : forall p, promises w !! p <> Some (Rejected PlayerUninitialized);
  g_results : forall p r,
    promises w !! p = Some (Resolved r) ->
    analyser w = Some (r_analyser r) /\ r_player r < length (players w)
}.

(** * The chat store

    [useChatStore]: a zustand store.  Every action is [set] applied to a
    function of the state; [set] merges the object it is given into the
    state, so a field the object does not name is kept. *)

Module ChatStore.

Record Message := mkMessage {
  role : string;
  content : string
}.

Record ChatState := mkChatState {
  messages : list Message;
  hasInitialized : bool
}.

(** The state [create] starts from. *)
Definition initial : ChatState := mkChatState [] false.

(** [messages: [...state.messages, message]] *)
Definition addMessage (message : Message) (state : ChatState) : ChatState :=
  mkChatState (messages state ++ [message]) (hasInitialized state).

(** [state.messages.map((msg, idx) =>
       idx === state.messages.length - 1 ? { ...msg, content } : msg)];
    the index compared with is [-1] on an empty list, so the comparison is
    made in [Z]. *)
Definition updateLastMessage (content : string) (state : ChatState)
    : ChatState :=
  mkChatState
    (imap (fun idx msg =>
             if decide (Z.of_nat idx
                        = (Z.of_nat (length (messages state)) - 1)%Z)
             then mkMessage (role msg) content
             else msg)
       (messages state))
    (hasInitialized state).

Definition clearMessages (state : ChatState) : ChatState :=
  mkChatState [] (hasInitialized state).

Definition setHasInitialized (value : bool) (state : ChatState) : ChatState :=
  mkChatState (messages state) value.

End ChatStore.

(** * The global key handler

    [GlobalKeyHandler] keeps the set of pressed keys in a ref and calls
    actions of the theme, camera and preset stores.  A handler is a function
    from the event and the set to the new set and the calls it makes, in
    order; [event.preventDefault()] is one of the calls.  The source has two
    versions of the component. *)

Inductive CameraDirection := DirNext | DirPrevious.

Inductive StoreCall :=
| preventDefault
| cycleNextTheme
| cyclePreviousTheme
| toggleVariant
| cycleCameraPosition (direction : CameraDirection)
| cycleNextPreset
| cyclePreviousPreset.

Record KeyboardEvent := mkKeyboardEvent {
  key : string;
  ctrlKey : bool
}.

(** [['ArrowLeft', 'ArrowRight', 'ArrowUp', 'ArrowDown'].includes(key)] *)
Definition isArrow (k : string) : bool :=
  bool_decide (k ∈ ["ArrowLeft"; "ArrowRight"; "ArrowUp"; "ArrowDown"]).

(** [pressedKeys.current.has('ArrowLeft') &&
     pressedKeys.current.has('ArrowRight')] *)
Definition bothArrows (pressedKeys : gset string) : bool :=
  bool_decide ("ArrowLeft" ∈ pressedKeys) &&
  bool_decide ("ArrowRight" ∈ pressedKeys).

(** The version in which the bracket keys cycle the presets. *)
Module GlobalKeyHandler.

Definition handleKeyDown (event : KeyboardEvent) (pressedKeys : gset string)
    : gset string * list StoreCall :=
  let '(pressedKeys, calls) :=
    if isArrow (key event) then
      let pressedKeys := {[key event]} ∪ pressedKeys in
      (pressedKeys,
       [preventDefault] ++
       (if bool_decide (key event = "ArrowLeft") then [cyclePreviousTheme]
        else if bool_decide (key event = "ArrowRight") then [cycleNextTheme]
        else if bool_decide (key event = "ArrowUp")
             then [cycleCameraPosition DirNext]
        else if bool_decide (key event = "ArrowDown")
             then [cycleCameraPosition DirPrevious]
        else []) ++
       (if bothArrows pressedKeys then [toggleVariant] else []))
    else (pressedKeys, []) in
  (pressedKeys,
   calls ++
   (if bool_decide (key event = "[") then [cyclePreviousPreset] else []) ++
   (if bool_decide (key event = "]") then [cycleNextPreset] else [])).

Definition handleKeyUp (event : KeyboardEvent) (pressedKeys : gset string)
    : gset string :=
  pressedKeys ∖ {[key event]}.

End GlobalKeyHandler.

(** The version in which Ctrl with an arrow cycles the presets. *)
Module GlobalKeyHandlerCtrl.

Definition handleKeyDown (event : KeyboardEvent) (pressedKeys : gset string)
    : gset string * list StoreCall :=
  if isArrow (key event) then
    let pressedKeys := {[key event]} ∪ pressedKeys in
    (pressedKeys,
     [preventDefault] ++
     (if ctrlKey event then
        if bool_decide (key event = "ArrowLeft") then [cyclePreviousPreset]
        else if bool_decide (key event = "ArrowRight") then [cycleNextPreset]
        else []
      else
        if bool_decide (key event = "ArrowLeft") then [cyclePreviousTheme]
        else if bool_decide (key event = "ArrowRight") then [cycleNextTheme]
        else if bool_decide (key event = "ArrowUp")
             then [cycleCameraPosition DirNext]
        else if bool_decide (key event = "ArrowDown")
             then [cycleCameraPosition DirPrevious]
        else []) ++
     (if bothArrows pressedKeys then [toggleVariant] else []))
  else (pressedKeys, []).

Definition handleKeyUp (event : KeyboardEvent) (pressedKeys : gset string)
    : gset string :=
  pressedKeys ∖ {[key event]}.

End GlobalKeyHandlerCtrl.

(** A key goes down or up. *)
Inductive KeyEvent :=
| KeyDown (event : KeyboardEvent)
| KeyUp (event : KeyboardEvent).

(** The pressed keys after a sequence of key events, for either version (the
    two keep the set in the same way). *)
Definition pressedAfter (evs : list KeyEvent) (pressedKeys : gset string)
    : gset string :=
  fold_left
    (fun pressed ev =>
       match ev with
       | KeyDown event => fst (GlobalKeyHandler.handleKeyDown event pressed)
       | KeyUp event => GlobalKeyHandler.handleKeyUp event pressed
       end)
    evs pressedKeys.

(** * Proofs *)

(** ** First runs *)

Example generate_then_load :
  promises (run [CallGenerateSpeech "hi"; EvPlayerLoad 0] (construct browser))
  = [Resolved (mkResult 0 0 (estimatedDuration "hi"))].
Proof. reflexivity. Qed.

Example generate_on_server :
  promises (run [CallGenerateSpeech "hi"] (construct server))
  = [Rejected EnvironmentUnavailable].
Proof. reflexivity. Qed.

Example generate_twice :
  promises (run [CallGenerateSpeech "a"; CallGenerateSpeech "b"]
              (construct browser))
  = [Pending; Rejected AlreadyInProgress].
Proof. reflexivity. Qed.

Example generate_error_code :
  promises (run [CallGenerateSpeech "a"; EvUtteranceError 0 "network"]
              (construct browser))
  = [Rejected (Error "Speech synthesis failed: network")].
Proof. reflexivity. Qed.

(** ** Tactics and stores *)

Ltac unfold_ops :=
  unfold step, generateSpeech, executor, new_promise, utterance_onend,
    utterance_onerror, player_onload, synth_voiceschanged, resume_then,
    analyser_signal, seek, stop, setPitch, setPlaybackRate, dispose,
    on_player, speak, resolve, reject, settle in *.

Ltac cases :=
  once (repeat (unfold_ops; simpl in *; once case_match; simplify_eq/=)).

Lemma lookup_settle_settled (ps : list Settlement) p q s x :
  ps !! p = Some x -> settled x = true ->
  alter (settle_with s) q ps !! p = Some x.
Proof.
  intros Hp Hx. rewrite list_lookup_alter. case_decide; [subst|done].
  rewrite Hp. simpl. by destruct x.
Qed.

Lemma lookup_settle_new (ps : list Settlement) p s s' x :
  ps !! p = Some x ->
  alter (settle_with s) (length ps) (ps ++ [s']) !! p = Some x.
Proof.
  intros Hp. pose proof (lookup_lt_Some _ _ _ Hp).
  rewrite list_lookup_alter_ne by lia. by apply lookup_app_l_Some.
Qed.

Lemma settled_step s w p x :
  promises w !! p = Some x -> settled x = true ->
  promises (step s w) !! p = Some x.
Proof.
  intros Hp Hx. destruct s; cases;
    first [ done | by apply lookup_app_l_Some | by apply lookup_settle_settled
          | by apply lookup_settle_new ].
Qed.


Lemma promises_length_step s w :
  length (promises w) <= length (promises (step s w)).
Proof.
  destruct s; cases; rewrite ?length_alter, ?length_app; simpl; lia.
Qed.

Lemma wf_construct pf : wf (construct pf).
Proof.
  unfold construct. destruct (pf_window pf); split; simpl; intros;
    simplify_eq; try done; try lia; naive_solver.
Qed.

Ltac fin :=
  try done; try congruence; try lia;
  try (intuition (simplify_eq/=; try congruence; try lia); fail).

Lemma hasWindow_step s w : hasWindow (step s w) = hasWindow w.
Proof. destruct s; cases; done. Qed.

Lemma window_step s w :
  (hasWindow w = false -> isGenerating w = false) ->
  hasWindow (step s w) = false -> isGenerating (step s w) = false.
Proof.
  intros H1. destruct s; cases; intros Hw; fin.
  all: rewrite Hw in *; fin.
Qed.

Lemma components_step s w :
  (synth w = None \/ audioContext w = None \/ mediaStreamDestination w = None ->
   utterances w = []) ->
  synth (step s w) = None \/ audioContext (step s w) = None \/
    mediaStreamDestination (step s w) = None ->
  utterances (step s w) = [].
Proof.
  intros H2. destruct s; cases; intros Hc; fin.
  all: destruct Hc as [?|[?|?]]; fin; rewrite H2 by auto; done.
Qed.

Lemma alter_lookup_inv {A} (f : A -> A) (l : list A) i j y :
  alter f i l !! j = Some y ->
  exists x, l !! j = Some x /\ (y = x \/ y = f x).
Proof.
  rewrite list_lookup_alter. case_decide; [subst|eauto].
  intros (x & ? & ?)%fmap_Some. eauto.
Qed.

Lemma snoc_lookup_inv {A} (l : list A) a j y :
  (l ++ [a]) !! j = Some y -> l !! j = Some y \/ (j = length l /\ y = a).
Proof.
  intros [?|[? H]]%lookup_app_Some; [by left|right].
  apply list_lookup_singleton_Some in H as [? ?]. split; [lia|done].
Qed.

Ltac inv_lookup :=
  repeat match goal with
  | H : alter _ _ _ !! _ = Some _ |- _ =>
      apply alter_lookup_inv in H as (? & H & [?|?]); simplify_eq/=
  | H : (_ ++ [_]) !! _ = Some _ |- _ =>
      apply snoc_lookup_inv in H as [H|[? ?]]; simplify_eq/=
  end.

Lemma players_step_inv s w x pl :
  players (step s w) !! x = Some pl ->
  (exists pl0, players w !! x = Some pl0 /\ same_onload pl pl0) \/
  (exists text, s = CallGenerateSpeech text /\ x = length (players w) /\
     onload_text pl = text /\ onload_settles pl = length (promises w) /\
     length (promises w) < length (promises (step s w))).
Proof.
  unfold same_onload.
  destruct s; cases; intros Hx; inv_lookup; eauto 10.
  all: right; eexists; repeat split; rewrite ?length_alter, ?length_app; simpl; lia.
Qed.

Lemma alter_lookup_fwd {A} (f : A -> A) (l : list A) i j x :
  l !! j = Some x ->
  alter f i l !! j = Some x \/ alter f i l !! j = Some (f x).
Proof.
  intros Hj. rewrite list_lookup_alter. case_decide; [subst|by left].
  right. by rewrite Hj.
Qed.

Lemma players_step_fwd s w x pl0 :
  players w !! x = Some pl0 ->
  exists pl, players (step s w) !! x = Some pl /\ same_onload pl pl0.
Proof.
  unfold same_onload. intros Hx.
  destruct s; cases; eauto;
    repeat match goal with
    | |- exists pl, (_ ++ [_]) !! _ = Some pl /\ _ =>
        eexists; split; [by apply lookup_app_l_Some|done]
    | |- exists pl, alter ?f ?i ?l !! ?j = Some pl /\ _ =>
        let H := fresh in
        assert (exists y, l !! j = Some y /\ onload_text y = onload_text pl0 /\
                  onload_settles y = onload_settles pl0) as (y & H & ? & ?);
        [|destruct (alter_lookup_fwd f l i j y H) as [->| ->];
          eexists; split; try done; simpl; done]
    end; eauto.
Qed.

Lemma utterances_step_inv s w u ut :
  utterances (step s w) !! u = Some ut ->
  (exists ut0, utterances w !! u = Some ut0 /\ same_onend ut ut0) \/
  (exists text, s = CallGenerateSpeech text /\ u = length (utterances w) /\
     u_text ut = text /\ u_settles ut = length (promises w) /\
     length (promises w) < length (promises (step s w))).
Proof.
  unfold same_onend.
  destruct s; cases; intros Hx; inv_lookup; eauto 10.
  all: right; eexists; repeat split; rewrite ?length_alter, ?length_app; simpl; lia.
Qed.


Lemma player_ref_step s w :
  (forall x, player w = Some x -> x < length (players w)) ->
  forall x, player (step s w) = Some x -> x < length (players (step s w)).
Proof.
  intros H5 x. destruct s; cases; intros Hx; simplify_eq;
    rewrite ?length_alter, ?length_app; simpl; try lia;
    try (by apply H5); try (apply H5 in Hx; lia).
Qed.

Lemma analyser_step s w : analyser (step s w) = analyser w.
Proof. destruct s; cases; done. Qed.

Lemma analysers_length_step s w :
  length (analysers (step s w)) = length (analysers w).
Proof. destruct s; cases; rewrite ?length_alter; done. Qed.

Lemma wf_step s w : wf w -> wf (step s w).
Proof.
  intros [H1 H2 H3 H4 H5 H6]. split.
  - by apply window_step.
  - by apply components_step.
  - intros x pl [(pl0 & Hx & _ & ->)|(t & _ & _ & _ & -> & ?)]%players_step_inv;
      [|done].
    pose proof (promises_length_step s w). apply H3 in Hx. lia.
  - intros u ut [(ut0 & Hx & _ & ->)|(t & _ & _ & _ & -> & ?)]%utterances_step_inv;
      [|done].
    pose proof (promises_length_step s w). apply H4 in Hx. lia.
  - by apply player_ref_step.
  - intros a. rewrite analyser_step, analysers_length_step. apply H6.
Qed.

Lemma wf_run tr w : wf w -> wf (run tr w).
Proof.
  revert w. induction tr as [|s tr IH]; intros w Hw; [done|].
  simpl. by apply IH, wf_step.
Qed.

Lemma reachable_wf w : reachable w -> wf w.
Proof. intros (pf & tr & ->). apply wf_run, wf_construct. Qed.

Lemma run_app tr1 tr2 w : run (tr1 ++ tr2) w = run tr2 (run tr1 w).
Proof. unfold run. by rewrite fold_left_app. Qed.

Lemma reachable_run tr w : reachable w -> reachable (run tr w).
Proof.
  intros (pf & tr0 & ->). exists pf, (tr0 ++ tr). by rewrite run_app.
Qed.

(** ** Re-entrancy: a call while another is generating *)

Lemma generating_has_window w :
  reachable w -> isGenerating w = true -> hasWindow w = true.
Proof.
  intros Hw%reachable_wf Hg. destruct (hasWindow w) eqn:E; [done|].
  rewrite (wf_window _ Hw E) in Hg. done.
Qed.

(** *** Renumbering commutes with every step *)

Lemma length_ins {A} n (x : A) l : length (ins n x l) = S (length l).
Proof.
  revert n. induction l as [|a l IH]; intros [|n]; simpl; try done.
  by rewrite IH.
Qed.

Lemma ins_snoc {A} n (x y : A) l :
  n <= length l -> ins n x (l ++ [y]) = ins n x l ++ [y].
Proof.
  revert n. induction l as [|a l IH]; intros [|n] Hn; simpl in *; try done;
    try lia.
  rewrite IH by lia. done.
Qed.

Lemma ins_length {A} (x : A) l : ins (length l) x l = l ++ [x].
Proof. induction l as [|a l IH]; simpl; [done|by rewrite IH]. Qed.

Lemma alter_ins {A} (f : A -> A) n q (x : A) l :
  n <= length l -> alter f (shift n q) (ins n x l) = ins n x (alter f q l).
Proof.
  revert n q. induction l as [|a l IH]; intros [|n] [|q] Hn;
    simpl in *; try done; try lia.
  specialize (IH n q). unfold shift in *.
  repeat case_decide; try lia; cbn; f_equal; apply IH; lia.
Qed.

Lemma lookup_ins_lt {A} n q (x : A) l :
  q < n -> n <= length l -> ins n x l !! q = l !! q.
Proof.
  revert n q. induction l as [|a l IH]; intros [|n] [|q] ? ?;
    simpl in *; try done; try lia.
  apply IH; lia.
Qed.

Lemma shift_ge n q : n <= q -> shift n q = S q.
Proof. intros. unfold shift. case_decide; [lia|done]. Qed.

Lemma fmap_alter_comm {A} (f g : A -> A) (l : list A) i :
  (forall a, f (g a) = g (f a)) -> alter g i (f <$> l) = f <$> alter g i l.
Proof.
  intros Hc. symmetry. apply list_fmap_alter. apply Forall_forall. auto.
Qed.

Lemma settle_new_renumbered n (x s : Settlement) ps :
  n <= length ps ->
  alter (settle_with s) (S (length ps)) (ins n x ps ++ [Pending])
  = ins n x (alter (settle_with s) (length ps) (ps ++ [Pending])).
Proof.
  intros Hn.
  rewrite (alter_app_r_alt _ ps [Pending] (length ps)) by done.
  rewrite (alter_app_r_alt _ (ins n x ps) [Pending] (S (length ps)))
    by (by rewrite length_ins).
  rewrite length_ins, !Nat.sub_diag. cbn. by rewrite ins_snoc.
Qed.

Ltac renumber_lists :=
  rewrite ?length_ins, ?length_fmap, ?list_lookup_fmap;
  rewrite ?shift_ge, ?fmap_app, ?ins_snoc by done;
  rewrite ?settle_new_renumbered, ?alter_ins by done;
  rewrite ?(fmap_alter_comm (shift_utterance _)) by done;
  rewrite ?(fmap_alter_comm (shift_player _)) by done.

Lemma world_ext (w1 w2 : World) :
  hasWindow w1 = hasWindow w2 -> resumeThrows w1 = resumeThrows w2 ->
  synth w1 = synth w2 -> utterance w1 = utterance w2 ->
  player w1 = player w2 -> analyser w1 = analyser w2 ->
  audioContext w1 = audioContext w2 ->
  mediaStreamDestination w1 = mediaStreamDestination w2 ->
  isGenerating w1 = isGenerating w2 -> isCancelled w1 = isCancelled w2 ->
  utterances w1 = utterances w2 -> players w1 = players w2 ->
  analysers w1 = analysers w2 -> promises w1 = promises w2 ->
  w1 = w2.
Proof. destruct w1, w2; simpl; intros; by subst. Qed.

Ltac renumber :=
  repeat (once case_match; simplify_eq/=);
  try (apply (f_equal2 pair); [|done]);
  apply world_ext; simpl; try done;
  renumber_lists; try done;
  simpl; unfold shift_utterance, shift_player; simpl;
  rewrite ?shift_ge by done; try done;
  rewrite ?list_lookup_fmap;
  try (by destruct (_ !! _)).

Section Renumbering.
Context (n : nat) (x : Settlement).

Lemma stop_renumbered w :
  stop (renumbered n x w) = (renumbered n x (fst (stop w)), snd (stop w)).
Proof. unfold stop, on_player; simpl. renumber. Qed.

Lemma dispose_renumbered w :
  fst (dispose (renumbered n x w)) = renumbered n x (fst (dispose w)).
Proof.
  unfold dispose. rewrite stop_renumbered.
  destruct (stop w) as [w1 [[]|e]]; simpl; [|done].
  unfold on_player; simpl. renumber.
Qed.

Lemma step_renumbered s w :
  n <= length (promises w) ->
  step s (renumbered n x w) = renumbered n x (step s w).
Proof.
  intros Hn.
  destruct s; unfold step;
    [| by rewrite stop_renumbered | | | | apply dispose_renumbered | | | | | | ];
    unfold generateSpeech, executor, new_promise, utterance_onend,
      utterance_onerror, player_onload, synth_voiceschanged, resume_then,
      analyser_signal, seek, setPitch, setPlaybackRate,
      on_player, speak, resolve, reject, settle; simpl;
    rewrite ?length_ins, ?length_fmap, ?list_lookup_fmap; renumber.
Qed.

Lemma run_renumbered tr w :
  n <= length (promises w) ->
  run tr (renumbered n x w) = renumbered n x (run tr w).
Proof.
  revert w. induction tr as [|s tr IH]; intros w Hn; [done|].
  simpl. rewrite step_renumbered by done. apply IH.
  pose proof (promises_length_step s w). lia.
Qed.

End Renumbering.

Lemma shift_lt n q : q < n -> shift n q = q.
Proof. intros. unfold shift. case_decide; [done|lia]. Qed.

Lemma with_promise_renumbered x w :
  wf w -> with_promise x w = renumbered (length (promises w)) x w.
Proof.
  intros Hwf. apply world_ext; simpl; try done.
  - symmetry. erewrite list_fmap_ext; [apply list_fmap_id|].
    intros i u Hu. destruct u. unfold shift_utterance. simpl.
    rewrite shift_lt; [done|]. apply (wf_utterances _ Hwf _ _ Hu).
  - symmetry. erewrite list_fmap_ext; [apply list_fmap_id|].
    intros i p Hp. destruct p. unfold shift_player. simpl.
    rewrite shift_lt; [done|]. apply (wf_players _ Hwf _ _ Hp).
  - by rewrite ins_length.
Qed.

Lemma promises_length_run tr w :
  length (promises w) <= length (promises (run tr w)).
Proof.
  revert w. induction tr as [|s tr IH]; intros w; [done|].
  simpl. pose proof (promises_length_step s w). specialize (IH (step s w)). lia.
Qed.

(** C1.  While [isGenerating] is set, [generateSpeech(t)] returns a promise
    that is already rejected with 'Speech generation already in progress' and
    leaves the instance as it was: the world after the call is the world
    before it with that one promise more.  Whatever run follows, further
    calls included, ends in the world it ends in without the call, up to
    the number of the promises made later; so every promise handed out
    before the call is settled, or left pending, exactly as without it. *)
Theorem generateSpeech_while_generating (t : string) (w : World) :
  reachable w -> isGenerating w = true ->
  generateSpeech t w
    = (with_promise (Rejected AlreadyInProgress) w, length (promises w)) /\
  promises (fst (generateSpeech t w)) !! snd (generateSpeech t w)
    = Some (Rejected AlreadyInProgress) /\
  (forall tr,
     run tr (fst (generateSpeech t w))
       = renumbered (length (promises w)) (Rejected AlreadyInProgress)
           (run tr w)) /\
  (forall tr q, q < length (promises w) ->
     promises (run tr (fst (generateSpeech t w))) !! q
       = promises (run tr w) !! q).
Proof.
  intros Hr Hg. pose proof (generating_has_window w Hr Hg) as Hwin.
  assert (generateSpeech t w
          = (with_promise (Rejected AlreadyInProgress) w, length (promises w)))
    as E by (unfold generateSpeech; rewrite Hwin, Hg; done).
  assert (forall tr,
            run tr (with_promise (Rejected AlreadyInProgress) w)
            = renumbered (length (promises w)) (Rejected AlreadyInProgress)
                (run tr w)) as Hrun.
  { intros tr. rewrite with_promise_renumbered by (by apply reachable_wf).
    by apply run_renumbered. }
  rewrite E. simpl. repeat split.
  - by apply list_lookup_middle.
  - apply Hrun.
  - intros tr q Hq. rewrite Hrun. simpl.
    apply lookup_ins_lt; [done|apply promises_length_run].
Qed.

Lemma generateSpeech_while_generating_witness :
  generateSpeech "second" first_request
    = (with_promise (Rejected AlreadyInProgress) first_request, 1) /\
  promises
    (run [EvUtteranceEnd 0; CallGenerateSpeech "third"; EvPlayerLoad 0]
       (fst (generateSpeech "second" first_request))) !! 0
  = promises
      (run [EvUtteranceEnd 0; CallGenerateSpeech "third"; EvPlayerLoad 0]
         first_request) !! 0.
Proof.
  assert (reachable first_request) as Hr
    by (by exists browser, [CallGenerateSpeech "hi"]).
  assert (isGenerating first_request = true) as Hg by (vm_compute; reflexivity).
  destruct (generateSpeech_while_generating "second" first_request Hr Hg)
    as (E & _ & _ & Hq).
  split; [exact E|].
  apply Hq. vm_compute. lia.
Defined.

(** ** Which callback settles the promise *)

Lemma reject_never_resolves (ps : list Settlement) q e p r :
  alter (settle_with (Rejected e)) q ps !! p = Some (Resolved r) ->
  ps !! p = Some (Resolved r).
Proof.
  intros (x & Hx & [->|E])%alter_lookup_inv; [done|].
  destruct x; simpl in E; by simplify_eq.
Qed.

Lemma resolved_step_inv s w p r :
  promises (step s w) !! p = Some (Resolved r) ->
  promises w !! p = Some (Resolved r) \/ exists pl, s = EvPlayerLoad pl.
Proof.
  destruct s; try (right; by eexists); cases; intros Hp; left;
    repeat match goal with
    | H : alter (settle_with (Rejected _)) _ _ !! _ = Some (Resolved _) |- _ =>
        apply reject_never_resolves in H
    | H : (_ ++ [_]) !! _ = Some _ |- _ =>
        apply snoc_lookup_inv in H as [H|[? ?]]; simplify_eq/=
    end; done.
Qed.

Lemma reject_lookup (ps : list Settlement) q e p :
  alter (settle_with (Rejected e)) q ps !! p = ps !! p \/
  (ps !! p = Some Pending /\
   alter (settle_with (Rejected e)) q ps !! p = Some (Rejected e)).
Proof.
  rewrite list_lookup_alter. case_decide; [subst|by left].
  destruct (ps !! p) as [[]|]; simpl; auto.
Qed.

(** C2.  Whatever the step, a promise that becomes resolved in it becomes so
    in the [onload] callback of a player: no method and no other callback
    resolves.  The utterance callbacks leave a promise as it is or turn a
    pending one into a rejection ([onend]: cancelled; [onerror]: the failure
    with the engine's code); and a promise that is settled stays as it is in
    every step, so nothing settles it a second time. *)
Theorem resolved_only_by_onload (s : Step) (w : World) (p : nat) :
  (forall r, promises (step s w) !! p = Some (Resolved r) ->
             promises w !! p <> Some (Resolved r) ->
             exists pl, s = EvPlayerLoad pl) /\
  (forall u,
     promises (utterance_onend u w) !! p = promises w !! p \/
     (promises w !! p = Some Pending /\
      promises (utterance_onend u w) !! p = Some (Rejected Cancelled))) /\
  (forall u code,
     promises (utterance_onerror u code w) !! p = promises w !! p \/
     (promises w !! p = Some Pending /\
      promises (utterance_onerror u code w) !! p
        = Some (Rejected (SynthesisFailed code)))) /\
  (forall x, promises w !! p = Some x -> settled x = true ->
             promises (step s w) !! p = Some x).
Proof.
  split; [|split; [|split]].
  - intros r Hr Hn. by destruct (resolved_step_inv s w p r Hr).
  - intros u. unfold utterance_onend. cases; auto using reject_lookup.
  - intros u code. unfold utterance_onerror. cases; auto using reject_lookup.
  - intros x. apply settled_step.
Qed.

Lemma resolved_only_by_onload_witness :
  let w := run [CallGenerateSpeech "hi"] (construct browser) in
  (exists pl, EvPlayerLoad 0 = EvPlayerLoad pl) /\
  promises (step (EvUtteranceEnd 0) (step (EvPlayerLoad 0) w)) !! 0
    = Some (Resolved (mkResult 0 0 (estimatedDuration "hi"))).
Proof.
  intros w. split.
  - apply (proj1 (resolved_only_by_onload (EvPlayerLoad 0) w 0)
             (mkResult 0 0 (estimatedDuration "hi"))); [reflexivity|].
    discriminate.
  - apply (proj2 (proj2 (proj2
             (resolved_only_by_onload (EvUtteranceEnd 0)
                (step (EvPlayerLoad 0) w) 0)))); reflexivity.
Defined.

(** ** Cancellation *)







(** ** The moment of resolution *)

Lemma onload_resolves_inv pl w p r :
  promises (player_onload pl w) !! p = Some (Resolved r) ->
  promises w !! p = Some (Resolved r) \/
  exists made x a,
    players w !! pl = Some made /\ onload_settles made = p /\
    player w = Some x /\ analyser w = Some a /\
    promises w !! p = Some Pending /\
    r = mkResult x a (estimatedDuration (onload_text made)).
Proof.
  unfold player_onload. cases; intros Hp; auto.
  - rewrite list_lookup_alter in Hp. case_decide; [subst|by left].
    destruct (promises w !! onload_settles p0) as [[]|] eqn:E;
      simplify_eq/=; [right; eauto 10|by left].
  - left. by eapply reject_never_resolves.
  - left. by eapply reject_never_resolves.
Qed.


(** ** Unguarded handles *)

Lemma getWaveformData_present w a an :
  analyser w = Some a -> analysers w !! a = Some an ->
  getWaveformData w = Normal (waveform an).
Proof. intros Ha Han. unfold getWaveformData. by rewrite Ha, Han. Qed.

Lemma getWaveformData_reachable w a :
  reachable w -> analyser w = Some a ->
  exists an, analysers w !! a = Some an /\
             getWaveformData w = Normal (waveform an).
Proof.
  intros Hr Ha.
  pose proof (wf_analyser _ (reachable_wf _ Hr) a Ha) as Hlt.
  apply lookup_lt_is_Some_2 in Hlt as [an Han].
  exists an. split; [done|]. by apply (getWaveformData_present w a).
Qed.

Lemma getWaveformData_absent w :
  analyser w = None -> getWaveformData w = Throw TypeError_null.
Proof. intros Ha. unfold getWaveformData. by rewrite Ha. Qed.

(** C5.  On the instance made where there is no [window] the analyser is
    null, and [getWaveformData()] throws the TypeError of reading a member of
    null: not the error 'Speech synthesis components are not initialized.'
    that [generateSpeech] raises for missing components. *)
Theorem getWaveformData_on_server :
  analyser (construct server) = None /\
  getWaveformData (construct server) = Throw TypeError_null /\
  getWaveformData (construct server) <> Throw ComponentsUninitialized.
Proof. repeat split. discriminate. Qed.

Lemma dispose_releases w sy x a ac :
  synth w = Some sy -> player w = Some x -> analyser w = Some a ->
  audioContext w = Some ac ->
  snd (dispose w) = Normal tt /\
  audioContext (fst (dispose w))
    = Some (mkAudioContext (S (closes ac)) (resuming ac)) /\
  players (fst (dispose w)) !! x
    = (player_dispose ∘ player_stop) <$> players w !! x /\
  analysers (fst (dispose w)) !! a
    = (fun an => mkAnalyser (waveform an) true) <$> analysers w !! a.
Proof.
  intros Hs Hx Ha Hc. unfold dispose, stop, on_player.
  destruct (isGenerating w);
    repeat (progress (simpl; rewrite ?Hs, ?Hx, ?Ha, ?Hc));
    rewrite list_alter_alter_eq, !list_lookup_alter_eq; done.
Qed.

Lemma dispose_without_analyser w :
  isGenerating w = false -> analyser w = None ->
  snd (dispose w) = Throw TypeError_null.
Proof.
  intros Hg Ha. unfold dispose, stop, on_player. rewrite Hg.
  destruct (player w) eqn:Hx; simpl; rewrite ?Hx; simpl; by rewrite Ha.
Qed.

Example dispose_twice_in_browser :
  snd (dispose (fst (dispose first_request))) = Normal tt.
Proof. vm_compute. reflexivity. Qed.

(** C9.  [dispose()] on the instance made where there is no [window], whose
    handles were never created, throws: [stop()] returns and the player is
    skipped by its guard, but [this.analyser.dispose()] has no guard and
    [this.analyser] is null. *)
Theorem dispose_on_server :
  snd (stop (construct server)) = Normal tt /\
  player (construct server) = None /\
  analyser (construct server) = None /\
  snd (dispose (construct server)) = Throw TypeError_null.
Proof. repeat split. Qed.

(** ** Voice selection *)

Lemma voiceschanged_selects_first w sy v0 vs u ut :
  synth w = Some sy -> onvoiceschanged sy = true ->
  utterance w = Some u -> utterances w !! u = Some ut ->
  utterances (synth_voiceschanged (v0 :: vs) w) !! u
    = Some (set_u_voice (Some v0) ut) /\
  (spoken <$> synth (synth_voiceschanged (v0 :: vs) w))
    = Some (spoken sy ++ [(u, Some v0)]).
Proof.
  intros Hs Hh Hu Hut. unfold synth_voiceschanged, speak.
  rewrite Hs, Hh. simpl. rewrite Hu. simpl.
  rewrite list_lookup_alter_eq, Hut. done.
Qed.

Lemma resume_then_speaks_as_is w sy ac n u :
  synth w = Some sy -> audioContext w = Some ac -> resuming ac = S n ->
  utterance w = Some u ->
  utterances (resume_then w) = utterances w /\
  (spoken <$> synth (resume_then w))
    = Some (spoken sy ++ [(u, utterances w !! u ≫= u_voice)]).
Proof.
  intros Hs Ha Hn Hu. unfold resume_then, speak.
  rewrite Ha, Hn. simpl. rewrite Hu. simpl. by rewrite Hs.
Qed.

(** C6.  In a browser whose voice list is already loaded, a call and then the
    [then] callback of [audioContext.resume()]: the utterance is spoken with
    no voice assigned, although [getVoices()] has a first voice.  Only the
    [voiceschanged] handler assigns [voices[0]] before it speaks. *)
Theorem resume_speaks_without_voice :
  (voices <$> synth first_request) = Some ["en-US"] /\
  (spoken <$> synth (step EvResumeThen first_request)) = Some [(0, None)] /\
  (u_voice <$> utterances (step EvResumeThen first_request) !! 0)
    = Some None /\
  (spoken <$> synth (step (EvVoicesChanged ["en-US"]) first_request))
    = Some [(0, Some "en-US")].
Proof. repeat split. Qed.

(** ** Pitch *)

Lemma clamp_rate_spec lo hi x :
  (lo <= hi)%Q -> (clamp_rate lo hi x == clamp_spec x lo hi)%Q.
Proof.
  intros Hlh. unfold clamp_rate, clamp_spec.
  destruct (Qlt_le_dec x lo) as [Hx|Hx].
  - rewrite Q.max_l; [reflexivity|].
    rewrite Q.min_r; [by apply Qlt_le_weak|].
    apply Qlt_le_weak. by eapply Qlt_le_trans.
  - destruct (Qlt_le_dec hi x) as [Hh|Hh].
    + rewrite Q.min_l by (by apply Qlt_le_weak). by rewrite Q.max_r.
    + rewrite Q.min_r by done. by rewrite Q.max_r.
Qed.

Lemma clamp_rate_bounds lo hi x :
  (lo <= hi)%Q -> (lo <= clamp_rate lo hi x <= hi)%Q.
Proof.
  intros Hlh. unfold clamp_rate. split; [apply Q.le_max_l|].
  apply Q.max_lub; [done|apply Q.le_min_l].
Qed.

Lemma alter_as_insert {A} (f : A -> A) (l : list A) i x :
  l !! i = Some x -> alter f i l = <[i := f x]> l.
Proof.
  intros Hi. apply list_eq. intros j.
  rewrite list_lookup_alter, list_lookup_insert.
  pose proof (lookup_lt_Some _ _ _ Hi).
  repeat case_decide; subst; try done; try lia. by rewrite Hi.
Qed.

Lemma setPitch_no_player pitch w :
  player w = None -> setPitch pitch w = (w, Normal tt).
Proof. intros Hx. unfold setPitch, on_player. by rewrite Hx. Qed.

(** C8.  With a player present, [setPitch(pitch)] returns normally and
    replaces that player by the same player with [playbackRate] set to
    [Math.max(0.5, Math.min(2, 1 + pitch / 12))], which is
    [clamp(1 + pitch/12, 0.5, 2)] and lies between 0.5 and 2; every other
    player, the utterances and every field of the instance are as before.
    The rate is 1 for pitch 0, 2 for pitch 24 and 0.5 for pitch -24. *)
Theorem setPitch_rate (pitch : Q) (w : World) (x : nat) (pl : Player) :
  player w = Some x -> players w !! x = Some pl ->
  let rate := clamp_rate (1#2) 2 (1 + pitch / 12) in
  setPitch pitch w
    = (set_players (<[x := set_playbackRate rate pl]> (players w)) w,
       Normal tt) /\
  players (fst (setPitch pitch w)) !! x = Some (set_playbackRate rate pl) /\
  (rate == clamp_spec (1 + pitch / 12) (1#2) 2)%Q /\
  (1#2 <= rate <= 2)%Q /\
  (pitch == 0 -> rate == 1)%Q /\
  (pitch == 24 -> rate == 2)%Q /\
  (pitch == -24 -> rate == 1#2)%Q.
Proof.
  intros Hx Hpl rate.
  assert (setPitch pitch w
          = (set_players (<[x := set_playbackRate rate pl]> (players w)) w,
             Normal tt)) as E.
  { unfold setPitch, on_player. rewrite Hx.
    by rewrite (alter_as_insert _ _ _ _ Hpl). }
  rewrite E. simpl. repeat split.
  - apply list_lookup_insert_eq. by eapply lookup_lt_Some.
  - by apply clamp_rate_spec.
  - by apply clamp_rate_bounds.
  - by apply clamp_rate_bounds.
  - intros Hp. unfold rate, clamp_rate. rewrite Hp. reflexivity.
  - intros Hp. unfold rate, clamp_rate. rewrite Hp. reflexivity.
  - intros Hp. unfold rate, clamp_rate. rewrite Hp. reflexivity.
Qed.

Lemma setPitch_rate_witness :
  players (fst (setPitch 24 (step (EvPlayerLoad 0) first_request))) !! 0
    = Some (mkPlayer (clamp_rate (1#2) 2 (1 + 24 / 12)) false (Some 0) true 0
              [] false "hi" 0) /\
  (clamp_rate (1#2) 2 (1 + 24 / 12) == 2)%Q /\
  (clamp_rate (1#2) 2 (1 + 0 / 12) == 1)%Q /\
  (clamp_rate (1#2) 2 (1 + -24 / 12) == 1#2)%Q.
Proof.
  assert (player (step (EvPlayerLoad 0) first_request) = Some 0) as Hx
    by (vm_compute; reflexivity).
  assert (players (step (EvPlayerLoad 0) first_request) !! 0
          = Some (mkPlayer 1 false (Some 0) true 0 [] false "hi" 0)) as Hpl
    by (vm_compute; reflexivity).
  pose proof (setPitch_rate 24 _ 0 _ Hx Hpl) as (_ & H24 & _ & _ & _ & E24 & _).
  pose proof (setPitch_rate 0 _ 0 _ Hx Hpl) as (_ & _ & _ & _ & E0 & _).
  pose proof (setPitch_rate (-24) _ 0 _ Hx Hpl) as (_ & _ & _ & _ & _ & _ & E24').
  split; [exact H24|]. split; [by apply E24|]. split; [by apply E0|by apply E24'].
Defined.

(** ** The duration estimate *)

Lemma made_for_generateSpeech text w :
  wf w -> made_for (snd (generateSpeech text w)) text (fst (generateSpeech text w)).
Proof.
  intros Hwf.
  assert (forall x pl, players w !! x = Some pl ->
                       onload_settles pl <> length (promises w)) as Hold.
  { intros x pl Hx. apply (wf_players _ Hwf) in Hx. lia. }
  unfold made_for, generateSpeech, executor, new_promise, reject, settle.
  cases; repeat split;
    rewrite ?length_alter, ?length_app; simpl; try lia;
    try (intros x pl Hx E; inv_lookup; try done; by destruct (Hold x pl)).
  all: intros r Hr.
  all: try (apply reject_never_resolves in Hr).
  all: try (rewrite list_lookup_middle in Hr by done; done).
Qed.

Lemma made_for_step s p text w :
  made_for p text w -> made_for p text (step s w).
Proof.
  intros (Hlen & Hpl & Hres). repeat split.
  - pose proof (promises_length_step s w). lia.
  - intros x pl [(pl0 & Hx & -> & E)|(t & _ & _ & _ & E & _)]%players_step_inv Hp.
    + apply (Hpl x pl0 Hx). congruence.
    + lia.
  - intros r Hr.
    destruct (resolved_step_inv s w p r Hr) as [?|[pl ->]]; [by apply Hres|].
    destruct (onload_resolves_inv pl w p r Hr)
      as [?|(made & x & a & Hm & Hp & _ & _ & _ & ->)]; [by apply Hres|].
    simpl. f_equal. by apply (Hpl pl made).
Qed.

Lemma made_for_run tr p text w :
  made_for p text w -> made_for p text (run tr w).
Proof.
  revert w. induction tr as [|s tr IH]; intros w H; [done|].
  simpl. by apply IH, made_for_step.
Qed.

Lemma estimatedDuration_exact text :
  (estimatedDuration text == Z.of_nat (String.length text) # 5)%Q.
Proof.
  unfold estimatedDuration, Qdiv, Qeq. simpl. lia.
Qed.

(** C7.  Whatever happens after a call [generateSpeech(text)], if its promise
    is resolved, the duration in the result is [text.length / 5]: the
    fraction itself, not an integer quotient.  It is 10 for a text of length
    50 and 0 for the empty text. *)
Theorem duration_is_length_over_5
    (text : string) (w : World) (tr : list Step) (r : SpeechResult) :
  reachable w ->
  promises (run tr (fst (generateSpeech text w))) !! snd (generateSpeech text w)
    = Some (Resolved r) ->
  r_duration r = (inject_Z (Z.of_nat (String.length text)) / 5)%Q /\
  (r_duration r == Z.of_nat (String.length text) # 5)%Q /\
  (String.length text = 50%nat -> (r_duration r == 10)%Q) /\
  (text = "" -> (r_duration r == 0)%Q).
Proof.
  intros Hr Hp.
  pose proof (made_for_run tr _ _ _
                (made_for_generateSpeech text w (reachable_wf w Hr)))
    as (_ & _ & Hres).
  rewrite (Hres r Hp). split; [done|].
  split; [apply estimatedDuration_exact|].
  split; [intros E|intros ->]; rewrite estimatedDuration_exact.
  - rewrite E. reflexivity.
  - reflexivity.
Qed.

Lemma duration_is_length_over_5_witness :
  (forall r,
     promises (run [EvPlayerLoad 0] (fst (generateSpeech fifty (construct browser))))
       !! snd (generateSpeech fifty (construct browser)) = Some (Resolved r) ->
     r_duration r == 10)%Q /\
  promises (run [EvPlayerLoad 0] (fst (generateSpeech fifty (construct browser))))
    !! snd (generateSpeech fifty (construct browser))
    = Some (Resolved (mkResult 0 0 (estimatedDuration fifty))) /\
  (forall r,
     promises (run [EvPlayerLoad 0] (fst (generateSpeech "" (construct browser))))
       !! snd (generateSpeech "" (construct browser)) = Some (Resolved r) ->
     r_duration r == 0)%Q /\
  promises (run [EvPlayerLoad 0] (fst (generateSpeech "" (construct browser))))
    !! snd (generateSpeech "" (construct browser))
    = Some (Resolved (mkResult 0 0 (estimatedDuration ""))).
Proof.
  assert (reachable (construct browser)) as Hr by (by exists browser, []).
  split; [|split; [vm_compute; reflexivity|split; [|vm_compute; reflexivity]]].
  - intros r Hp.
    destruct (duration_is_length_over_5 fifty _ [EvPlayerLoad 0] r Hr Hp)
      as (_ & _ & H50 & _).
    apply H50. vm_compute. reflexivity.
  - intros r Hp.
    destruct (duration_is_length_over_5 "" _ [EvPlayerLoad 0] r Hr Hp)
      as (_ & _ & _ & H0).
    by apply H0.
Defined.

(** ** The flags at the moment of resolution *)





(** ** A rejection that leaves the instance locked *)

Lemma locked_step s w : locked w -> locked (step s w).
Proof.
  intros (Hw & Hg & Hu & Hc). unfold locked.
  destruct s; cases; try done.
  all: rewrite ?Hu in *; simplify_eq/=; try done.
  all: repeat split; try done.
  all: destruct Hc as [?|[?|?]]; simplify_eq/=; auto.
Qed.

Lemma locked_run tr w : locked w -> locked (run tr w).
Proof.
  revert w. induction tr as [|s tr IH]; intros w H; [done|].
  simpl. by apply IH, locked_step.
Qed.

Lemma uninitialized_rejection_inv text w :
  wf w ->
  promises (fst (generateSpeech text w)) !! snd (generateSpeech text w)
    = Some (Rejected ComponentsUninitialized) ->
  isGenerating w = false /\ locked (fst (generateSpeech text w)).
Proof.
  intros Hwf. unfold locked, generateSpeech, executor, new_promise, reject, settle.
  cases; rewrite ?list_lookup_alter_eq, ?list_lookup_middle by done; simpl;
    intros; simplify_eq/=.
  all: destruct (hasWindow w) eqn:Ew; simplify_eq/=.
  all: pose proof (wf_components _ Hwf) as Hcomp.
  all: repeat split; auto.
Qed.

(** C10.  If the promise of a call is rejected with 'Speech synthesis
    components are not initialized.', the call has set [isGenerating] and
    nothing resets it: after any run of further calls and callbacks the flag
    is still set, and every [generateSpeech] then returns a promise rejected
    with 'Speech generation already in progress'. *)
Theorem uninitialized_rejection_locks
    (text : string) (w : World) (tr : list Step) (text' : string) :
  reachable w ->
  promises (fst (generateSpeech text w)) !! snd (generateSpeech text w)
    = Some (Rejected ComponentsUninitialized) ->
  isGenerating w = false /\
  isGenerating (fst (generateSpeech text w)) = true /\
  isGenerating (run tr (fst (generateSpeech text w))) = true /\
  promises (fst (generateSpeech text' (run tr (fst (generateSpeech text w)))))
    !! snd (generateSpeech text' (run tr (fst (generateSpeech text w))))
    = Some (Rejected AlreadyInProgress).
Proof.
  intros Hr Hp.
  destruct (uninitialized_rejection_inv text w (reachable_wf w Hr) Hp)
    as [Hg Hl].
  pose proof (locked_run tr _ Hl) as (Hw' & Hg' & _).
  split; [done|]. split; [apply Hl|]. split; [done|].
  generalize dependent (run tr (fst (generateSpeech text w))). intros w2 Hw' Hg'.
  unfold generateSpeech. rewrite Hw', Hg'. simpl.
  by apply list_lookup_middle.
Qed.

Lemma uninitialized_rejection_locks_witness :
  isGenerating
    (run [CallStop; EvVoicesChanged ["en-US"]; EvPlayerLoad 0]
       (fst (generateSpeech "hi" (construct mute_browser)))) = true /\
  promises
    (fst (generateSpeech "again"
            (run [CallStop; EvVoicesChanged ["en-US"]; EvPlayerLoad 0]
               (fst (generateSpeech "hi" (construct mute_browser))))))
    !! snd (generateSpeech "again"
              (run [CallStop; EvVoicesChanged ["en-US"]; EvPlayerLoad 0]
                 (fst (generateSpeech "hi" (construct mute_browser)))))
    = Some (Rejected AlreadyInProgress).
Proof.
  assert (reachable (construct mute_browser)) as Hr
    by (by exists mute_browser, []).
  assert (promises (fst (generateSpeech "hi" (construct mute_browser)))
            !! snd (generateSpeech "hi" (construct mute_browser))
          = Some (Rejected ComponentsUninitialized)) as Hp
    by (vm_compute; reflexivity).
  destruct (uninitialized_rejection_locks "hi" _
              [CallStop; EvVoicesChanged ["en-US"]; EvPlayerLoad 0] "again"
              Hr Hp) as (_ & _ & Hg & Ha).
  split; [exact Hg|exact Ha].
Defined.

(** * The rest of the control surface *)

(** ** Rates *)

Lemma alter_compose_const {A} (f g : A -> A) (l : list A) i :
  (forall a, f (g a) = f a) -> alter f i (alter g i l) = alter f i l.
Proof.
  intros Hfg. rewrite list_alter_alter_eq. apply list_alter_ext; [|done].
  intros a _. apply Hfg.
Qed.

(** X1.  With a player and an utterance present, [setPlaybackRate(rate)]
    returns normally and writes the same number,
    [Math.max(0.1, Math.min(10, rate))], into the player's [playbackRate] and
    into the utterance's [rate]; it is [clamp(rate, 0.1, 10)], lies between
    0.1 and 10, is 0.1 for rate 0 and 10 for rate 100; nothing else
    changes. *)
Theorem setPlaybackRate_rates
    (rate : Q) (w : World) (x u : nat) (pl : Player) (ut : Utterance) :
  player w = Some x -> players w !! x = Some pl ->
  utterance w = Some u -> utterances w !! u = Some ut ->
  let r := clamp_rate (1#10) 10 rate in
  setPlaybackRate rate w
    = (set_utterances (<[u := set_u_rate r ut]> (utterances w))
         (set_players (<[x := set_playbackRate r pl]> (players w)) w),
       Normal tt) /\
  (r == clamp_spec rate (1#10) 10)%Q /\
  (1#10 <= r <= 10)%Q /\
  (rate == 0 -> r == 1#10)%Q /\
  (rate == 100 -> r == 10)%Q.
Proof.
  intros Hx Hpl Hu Hut r. split; [|split; [|split; [|split]]].
  - unfold setPlaybackRate, on_player. rewrite Hx. simpl. rewrite Hu. simpl.
    by rewrite (alter_as_insert _ _ _ _ Hpl), (alter_as_insert _ _ _ _ Hut).
  - by apply clamp_rate_spec.
  - by apply clamp_rate_bounds.
  - intros E. unfold r, clamp_rate. rewrite E. reflexivity.
  - intros E. unfold r, clamp_rate. rewrite E. reflexivity.
Qed.

Lemma setPlaybackRate_rates_witness :
  setPlaybackRate 100 first_request
    = (set_utterances
         (<[0 := set_u_rate (clamp_rate (1#10) 10 100)
                   (mkUtterance "hi" None 1 0)]> (utterances first_request))
         (set_players
            (<[0 := set_playbackRate (clamp_rate (1#10) 10 100)
                      (mkPlayer 1 false None false 0 [] false "hi" 0)]>
               (players first_request)) first_request),
       Normal tt) /\
  (clamp_rate (1#10) 10 100 == 10)%Q.
Proof.
  assert (player first_request = Some 0) as Hx by (vm_compute; reflexivity).
  assert (players first_request !! 0
          = Some (mkPlayer 1 false None false 0 [] false "hi" 0)) as Hpl
    by (vm_compute; reflexivity).
  assert (utterance first_request = Some 0) as Hu by (vm_compute; reflexivity).
  assert (utterances first_request !! 0 = Some (mkUtterance "hi" None 1 0))
    as Hut by (vm_compute; reflexivity).
  destruct (setPlaybackRate_rates 100 first_request 0 0 _ _ Hx Hpl Hu Hut)
    as (E & _ & _ & _ & H100).
  split; [exact E|]. by apply H100.
Defined.

(** X2.  The player has one rate and the last call sets it.  With a player
    present, after [setPitch] then [setPlaybackRate] its rate is
    [Math.max(0.1, Math.min(10, rate))], after two [setPitch] it is the rate
    of the second pitch, and after [setPlaybackRate] then [setPitch] it is
    [Math.max(0.5, Math.min(2, 1 + pitch / 12))] while the utterance, when
    there is one, keeps the rate [setPlaybackRate] gave it.  With or without
    a player, a [setPitch] before [setPlaybackRate] leaves no trace in the
    state and a second [setPitch] replaces the first. *)
Theorem rate_last_call_wins (pitch pitch' rate : Q) (w : World) :
  fst (setPlaybackRate rate (fst (setPitch pitch w)))
    = fst (setPlaybackRate rate w) /\
  fst (setPitch pitch (fst (setPitch pitch' w))) = fst (setPitch pitch w) /\
  players (fst (setPitch pitch (fst (setPlaybackRate rate w))))
    = players (fst (setPitch pitch w)) /\
  utterances (fst (setPitch pitch (fst (setPlaybackRate rate w))))
    = utterances (fst (setPlaybackRate rate w)) /\
  (forall x pl,
     player w = Some x -> players w !! x = Some pl ->
     players (fst (setPlaybackRate rate (fst (setPitch pitch w)))) !! x
       = Some (set_playbackRate (clamp_rate (1#10) 10 rate) pl) /\
     players (fst (setPitch pitch (fst (setPitch pitch' w)))) !! x
       = Some (set_playbackRate (clamp_rate (1#2) 2 (1 + pitch / 12)) pl) /\
     players (fst (setPitch pitch (fst (setPlaybackRate rate w)))) !! x
       = Some (set_playbackRate (clamp_rate (1#2) 2 (1 + pitch / 12)) pl)) /\
  (forall u ut,
     utterance w = Some u -> utterances w !! u = Some ut ->
     utterances (fst (setPitch pitch (fst (setPlaybackRate rate w)))) !! u
       = Some (set_u_rate (clamp_rate (1#10) 10 rate) ut)).
Proof.
  assert (fst (setPlaybackRate rate (fst (setPitch pitch w)))
            = fst (setPlaybackRate rate w) /\
          fst (setPitch pitch (fst (setPitch pitch' w)))
            = fst (setPitch pitch w) /\
          players (fst (setPitch pitch (fst (setPlaybackRate rate w))))
            = players (fst (setPitch pitch w)) /\
          utterances (fst (setPitch pitch (fst (setPlaybackRate rate w))))
            = utterances (fst (setPlaybackRate rate w))) as (E1 & E2 & E3 & E4).
  { unfold setPlaybackRate, setPitch, on_player.
    destruct (player w) as [x|] eqn:Hx, (utterance w) as [u|] eqn:Hu; simpl;
      rewrite ?Hx, ?Hu; simpl; rewrite ?Hx, ?Hu; simpl;
      repeat split; try done;
      try (apply world_ext; simpl; try done);
      by rewrite alter_compose_const. }
  split; [done|]. split; [done|]. split; [done|]. split; [done|]. split.
  - intros x pl Hx Hpl. rewrite E1, E2, E3.
    unfold setPlaybackRate, setPitch, on_player. rewrite Hx. simpl.
    destruct (utterance w); simpl; rewrite !list_lookup_alter_eq, Hpl; done.
  - intros u ut Hu Hut. rewrite E4.
    unfold setPlaybackRate, on_player.
    destruct (player w); simpl; rewrite Hu; simpl;
      rewrite list_lookup_alter_eq, Hut; done.
Qed.

Lemma rate_last_call_wins_witness :
  players (fst (setPlaybackRate 3 (fst (setPitch 24 first_request)))) !! 0
    = Some (set_playbackRate (clamp_rate (1#10) 10 3)
              (mkPlayer 1 false None false 0 [] false "hi" 0)) /\
  players (fst (setPitch 24 (fst (setPlaybackRate 3 first_request)))) !! 0
    = Some (set_playbackRate (clamp_rate (1#2) 2 (1 + 24 / 12))
              (mkPlayer 1 false None false 0 [] false "hi" 0)) /\
  utterances (fst (setPitch 24 (fst (setPlaybackRate 3 first_request)))) !! 0
    = Some (set_u_rate (clamp_rate (1#10) 10 3) (mkUtterance "hi" None 1 0)).
Proof.
  assert (player first_request = Some 0) as Hx by (vm_compute; reflexivity).
  assert (players first_request !! 0
          = Some (mkPlayer 1 false None false 0 [] false "hi" 0)) as Hpl
    by (vm_compute; reflexivity).
  assert (utterance first_request = Some 0) as Hu by (vm_compute; reflexivity).
  assert (utterances first_request !! 0 = Some (mkUtterance "hi" None 1 0))
    as Hut by (vm_compute; reflexivity).
  destruct (rate_last_call_wins 24 0 3 first_request)
    as (_ & _ & _ & _ & Hplayers & Hutt).
  destruct (Hplayers 0 _ Hx Hpl) as (H1 & _ & H3).
  split; [exact H1|]. split; [exact H3|]. exact (Hutt 0 _ Hu Hut).
Defined.

(** ** What the controls leave alone *)

(** X3.  [stop], [seek], [setPitch], [setPlaybackRate] and [dispose] neither
    settle nor make a promise, do not clear [isGenerating] and do not replace
    a handle of the instance: a request in flight is ended by the callbacks
    only, also after [dispose()]. *)
Theorem controls_leave_requests (s : Step) (w : World) :
  control s = true ->
  promises (step s w) = promises w /\
  isGenerating (step s w) = isGenerating w /\
  utterance (step s w) = utterance w /\
  player (step s w) = player w /\
  analyser (step s w) = analyser w /\
  length (utterances (step s w)) = length (utterances w) /\
  length (players (step s w)) = length (players w).
Proof.
  intros Hs. destruct s; try discriminate; cases;
    rewrite ?length_alter; done.
Qed.

Lemma controls_leave_requests_witness :
  promises (step CallDispose first_request) = promises first_request /\
  isGenerating (step CallDispose first_request) = isGenerating first_request.
Proof.
  destruct (controls_leave_requests CallDispose first_request eq_refl)
    as (Hp & Hg & _).
  split; [exact Hp|exact Hg].
Defined.

(** ** Without a window *)

Lemma serverside_construct pf : pf_window pf = false -> serverside (construct pf).
Proof.
  intros Hw. unfold construct, serverside, fresh. rewrite Hw. simpl.
  repeat split; done.
Qed.

Lemma serverside_step s w : serverside w -> serverside (step s w).
Proof.
  intros (Hw & Hg & Hc & Hs & Hu & Hp & Ha & Hac & Hus & Hps & Hall).
  unfold serverside.
  destruct s; unfold step, generateSpeech, new_promise, utterance_onend,
    utterance_onerror, player_onload, synth_voiceschanged, resume_then,
    analyser_signal, seek, stop, setPitch, setPlaybackRate, dispose, stop,
    on_player; rewrite ?Hw, ?Hg, ?Hs, ?Hu, ?Hp, ?Ha, ?Hac, ?Hus, ?Hps; simpl;
    rewrite ?Hw, ?Hg, ?Hs, ?Hu, ?Hp, ?Ha, ?Hac, ?Hus, ?Hps; simpl;
    repeat split; try done.
  apply Forall_app. split; [done|]. by apply Forall_singleton.
Qed.

Lemma serverside_run tr w : serverside w -> serverside (run tr w).
Proof.
  revert w. induction tr as [|s tr IH]; intros w H; [done|].
  simpl. by apply IH, serverside_step.
Qed.

(** X4.  An instance made where there is no [window] never starts a request,
    whatever is called on it and whichever callbacks run: after every run
    [isGenerating] is false, there is no utterance and no player, and every
    promise it has handed out is rejected with 'Speech generation is not
    available on the server side.'. *)
Theorem server_never_generates (pf : Platform) (tr : list Step) :
  pf_window pf = false ->
  isGenerating (run tr (construct pf)) = false /\
  utterances (run tr (construct pf)) = [] /\
  players (run tr (construct pf)) = [] /\
  (forall p s, promises (run tr (construct pf)) !! p = Some s ->
               s = Rejected EnvironmentUnavailable).
Proof.
  intros Hw.
  destruct (serverside_run tr _ (serverside_construct pf Hw))
    as (_ & Hg & _ & _ & _ & _ & _ & _ & Hus & Hps & Hall).
  repeat split; try done.
  intros p s Hp. rewrite Forall_lookup in Hall. by apply (Hall p).
Qed.

Lemma server_never_generates_witness :
  isGenerating (run [CallStop; CallDispose; CallSeek 0] (construct server))
    = false /\
  isGenerating
    (run [CallGenerateSpeech "a"; CallStop; CallGenerateSpeech "b"]
       (construct server)) = false /\
  promises
    (run [CallGenerateSpeech "a"; CallStop; CallGenerateSpeech "b"]
       (construct server)) !! 1
  = Some (Rejected EnvironmentUnavailable).
Proof.
  destruct (server_never_generates server [CallStop; CallDispose; CallSeek 0]
              eq_refl) as (Hg0 & _).
  destruct (server_never_generates server
              [CallGenerateSpeech "a"; CallStop; CallGenerateSpeech "b"]
              eq_refl) as (Hg & _ & _ & Hall).
  split; [exact Hg0|]. split; [exact Hg|].
  destruct (promises
              (run [CallGenerateSpeech "a"; CallStop; CallGenerateSpeech "b"]
                 (construct server)) !! 1) as [s|] eqn:E.
  - by rewrite (Hall 1 s E).
  - vm_compute in E. discriminate E.
Defined.

(** ** Handles of a reachable world *)

Lemma grounded_construct pf : grounded (construct pf).
Proof.
  unfold construct, initializeBrowserComponents, fresh.
  destruct (pf_window pf); split; simpl; try done;
    try (intros _; repeat split; by eexists); by intros [?|?].
Qed.

Lemma frame_step s w :
  hasWindow (step s w) = hasWindow w /\
  analyser (step s w) = analyser w /\
  mediaStreamDestination (step s w) = mediaStreamDestination w /\
  (is_Some (audioContext w) -> is_Some (audioContext (step s w))) /\
  (is_Some (synth w) -> is_Some (synth (step s w))) /\
  (is_Some (player w) -> is_Some (player (step s w))) /\
  (is_Some (utterance w) -> is_Some (utterance (step s w))).
Proof.
  destruct s; cases; repeat split; intros; try done; by eexists.
Qed.

Lemma made_step s w :
  players (step s w) <> [] \/ utterances (step s w) <> [] ->
  players w <> [] \/ utterances w <> [] \/
  (hasWindow w = true /\ is_Some (synth (step s w)) /\
   is_Some (player (step s w)) /\ is_Some (utterance (step s w))).
Proof.
  destruct s; cases; intros [Hm|Hm]; auto.
  all: try (left; intros E; apply Hm; by rewrite E).
  all: try (right; left; intros E; apply Hm; by rewrite E).
  all: try (right; right; destruct (hasWindow w); repeat split; try done;
            by eexists).
Qed.

Lemma settle_other_lookup (ps : list Settlement) q s e p :
  s <> Rejected e ->
  alter (settle_with s) q ps !! p = Some (Rejected e) ->
  ps !! p = Some (Rejected e).
Proof.
  intros Hne (old & Hold & [->|E])%alter_lookup_inv; [done|].
  destruct old; simpl in E; congruence.
Qed.

Lemma snoc_other_lookup (ps : list Settlement) s e p :
  s <> Rejected e -> (ps ++ [s]) !! p = Some (Rejected e) ->
  ps !! p = Some (Rejected e).
Proof. intros Hne [?|[_ ?]]%snoc_lookup_inv; congruence. Qed.

Lemma guard_step s w p :
  promises (step s w) !! p = Some (Rejected PlayerUninitialized) ->
  promises w !! p = Some (Rejected PlayerUninitialized) \/
  exists pl made, players w !! pl = Some made /\
                  (player w = None \/ analyser w = None).
Proof.
  destruct s; cases.
  all: intros Hp.
  all: try (apply settle_other_lookup in Hp; [|discriminate]).
  all: try (apply snoc_other_lookup in Hp; [|discriminate]).
  all: try (by left).
  all: right; eexists _, _; split; [eassumption|by (left + right)].
Qed.

Lemma grounded_step s w : wf w -> grounded w -> grounded (step s w).
Proof.
  intros Hwf [Hwin Hmade Hguard Hres].
  destruct (frame_step s w) as (Ew & Ea & Em & Hac & Hsy & Hpl & Hut).
  split.
  - rewrite Ew, Ea, Em. intros H. destruct (Hwin H) as (? & ? & ?). auto.
  - intros H. rewrite Ew.
    destruct (made_step s w H) as [H'|[H'|H']]; [| |done];
      destruct (Hmade ltac:(auto)) as (? & ? & ? & ?); auto.
  - intros p Hp.
    destruct (guard_step s w p Hp) as [?|(pl & made & Hm & Hnone)];
      [by apply (Hguard p)|].
    assert (players w <> []) as Hne by (intros E; by rewrite E in Hm).
    destruct (Hmade (or_introl Hne)) as (Hw & _ & [x Hx] & _).
    destruct (Hwin Hw) as ([a Ha] & _).
    destruct Hnone; congruence.
  - intros p r Hp. rewrite Ea.
    destruct (resolved_step_inv s w p r Hp) as [Hold|[pl ->]].
    + destruct (Hres p r Hold) as [? Hlt]. split; [done|].
      destruct (lookup_lt_is_Some_2 _ _ Hlt) as [pl0 Hpl0].
      destruct (players_step_fwd s w _ _ Hpl0) as (pl' & Hpl' & _).
      by eapply lookup_lt_Some.
    + simpl in *.
      destruct (onload_resolves_inv pl w p r Hp)
        as [Hold|(made & x & a & Hm & _ & Hx & Ha & _ & ->)].
      * destruct (Hres p r Hold) as [? Hlt]. split; [done|].
        destruct (lookup_lt_is_Some_2 _ _ Hlt) as [pl0 Hpl0].
        destruct (players_step_fwd (EvPlayerLoad pl) w _ _ Hpl0)
          as (pl' & Hpl' & _).
        by eapply lookup_lt_Some.
      * simpl. split; [done|].
        pose proof (wf_player _ Hwf x Hx) as Hlt.
        destruct (lookup_lt_is_Some_2 _ _ Hlt) as [pl0 Hpl0].
        destruct (players_step_fwd (EvPlayerLoad pl) w _ _ Hpl0)
          as (pl' & Hpl' & _).
        by eapply lookup_lt_Some.
Qed.

Lemma reachable_grounded w : reachable w -> grounded w.
Proof.
  intros (pf & tr & ->).
  induction tr as [|s tr IH] using rev_ind; [apply grounded_construct|].
  rewrite run_app. simpl. apply grounded_step; [|done].
  apply wf_run, wf_construct.
Qed.

(** X5.  No run ever rejects a promise with 'Player or analyser not
    initialized.': whenever an [onload] callback runs, a request was
    accepted before it, so that [this.player] and [this.analyser] are set and
    the guard of [onload] is passed. *)
Theorem onload_guard_never_rejects (w : World) (p : nat) :
  reachable w -> promises w !! p <> Some (Rejected PlayerUninitialized).
Proof. intros Hr. apply (g_guard _ (reachable_grounded w Hr)). Qed.

Lemma onload_guard_never_rejects_witness :
  promises (run [EvPlayerLoad 0; EvPlayerLoad 1] first_request) !! 0
  <> Some (Rejected PlayerUninitialized).
Proof.
  apply onload_guard_never_rejects, reachable_run.
  by exists browser, [CallGenerateSpeech "hi"].
Defined.

(** X6.  The handles in a resolved promise are never dangling: the analyser
    is the one [getAnalyser()] returns, the same for every request and
    through every later step, and the player is a player of the store. *)
Theorem resolved_handles_valid
    (w : World) (p : nat) (r : SpeechResult) (tr : list Step) :
  reachable w -> promises w !! p = Some (Resolved r) ->
  getAnalyser w = Some (r_analyser r) /\
  getAnalyser (run tr w) = Some (r_analyser r) /\
  is_Some (analysers w !! r_analyser r) /\
  is_Some (players w !! r_player r).
Proof.
  intros Hr Hp. unfold getAnalyser.
  destruct (g_results _ (reachable_grounded w Hr) p r Hp) as [Ha Hlt].
  assert (forall tr, analyser (run tr w) = analyser w) as Hrun.
  { clear. intros tr. induction tr as [|s tr IH] using rev_ind; [done|].
    rewrite run_app. simpl. by rewrite analyser_step. }
  rewrite Hrun. repeat split; try done.
  - apply lookup_lt_is_Some. by apply (wf_analyser _ (reachable_wf w Hr)).
  - by apply lookup_lt_is_Some.
Qed.

Lemma resolved_handles_valid_witness :
  getAnalyser (run [CallDispose] (run [EvPlayerLoad 0] first_request))
    = Some (r_analyser (mkResult 0 0 (estimatedDuration "hi"))).
Proof.
  assert (reachable (run [EvPlayerLoad 0] first_request)) as Hr.
  { apply reachable_run. by exists browser, [CallGenerateSpeech "hi"]. }
  assert (promises (run [EvPlayerLoad 0] first_request) !! 0
          = Some (Resolved (mkResult 0 0 (estimatedDuration "hi")))) as Hp
    by (vm_compute; reflexivity).
  exact (proj1 (proj2 (resolved_handles_valid _ 0 _ [CallDispose] Hr Hp))).
Defined.

Lemma dispose_returns w :
  is_Some (synth w) -> is_Some (analyser w) -> is_Some (audioContext w) ->
  snd (dispose w) = Normal tt.
Proof.
  intros [sy Hs] [a Ha] [ac Hac]. unfold dispose, stop, on_player.
  destruct (isGenerating w), (player w) eqn:Hx;
    repeat (progress (simpl; rewrite ?Hs, ?Ha, ?Hac, ?Hx)); done.
Qed.

(** X7.  In a browser that has [window.speechSynthesis], no method of the
    instance ever throws, whatever was called before and whichever callbacks
    ran: [stop()], [dispose()] (repeated or not), [seek], [setPitch] and
    [setPlaybackRate] return, and [getWaveformData()] returns a buffer. *)
Theorem browser_methods_never_throw
    (pf : Platform) (vs : list Voice) (tr : list Step) (time : Q) :
  pf_window pf = true -> pf_speechSynthesis pf = Some vs ->
  snd (stop (run tr (construct pf))) = Normal tt /\
  snd (dispose (run tr (construct pf))) = Normal tt /\
  snd (seek time (run tr (construct pf))) = Normal tt /\
  snd (setPitch time (run tr (construct pf))) = Normal tt /\
  snd (setPlaybackRate time (run tr (construct pf))) = Normal tt /\
  exists buf, getWaveformData (run tr (construct pf)) = Normal buf.
Proof.
  intros Hw Hs.
  assert (reachable (run tr (construct pf))) as Hr by (by exists pf, tr).
  assert (hasWindow (run tr (construct pf)) = true /\
          is_Some (synth (run tr (construct pf)))) as [Hwin [sy Hsy]].
  { clear Hr. induction tr as [|s tr IH] using rev_ind.
    - unfold construct. rewrite Hw. simpl. rewrite Hs. split; [done|by eexists].
    - rewrite run_app. simpl. destruct IH as [? ?].
      destruct (frame_step s (run tr (construct pf))) as (-> & _ & _ & _ & H' & _).
      auto. }
  generalize dependent (run tr (construct pf)). intros w Hr Hwin Hsy.
  destruct (g_window _ (reachable_grounded w Hr) Hwin)
    as ([a Ha] & [ac Hac] & _).
  pose proof (wf_analyser _ (reachable_wf w Hr) a Ha) as Hlt.
  apply lookup_lt_is_Some_2 in Hlt as [an Han].
  assert (snd (stop w) = Normal tt) as Hstop.
  { unfold stop. destruct (isGenerating w); simpl; by rewrite ?Hsy. }
  repeat split.
  - done.
  - apply dispose_returns; by eexists.
  - unfold seek. by destruct (player w).
  - unfold setPlaybackRate. by destruct (utterance _).
  - exists (waveform an). by apply (getWaveformData_present w a).
Qed.

Lemma browser_methods_never_throw_witness :
  snd (dispose (run [CallGenerateSpeech "hi"; CallDispose; EvPlayerLoad 0]
                  (construct browser))) = Normal tt.
Proof.
  destruct (browser_methods_never_throw browser ["en-US"]
              [CallGenerateSpeech "hi"; CallDispose; EvPlayerLoad 0] 0
              eq_refl eq_refl) as (_ & H & _).
  exact H.
Defined.

(** ** Accepted requests *)

(** What an accepted call leaves behind. *)
Lemma generateSpeech_accepted t w sy ac d :
  hasWindow w = true -> isGenerating w = false ->
  synth w = Some sy -> audioContext w = Some ac ->
  mediaStreamDestination w = Some d -> resumeThrows w = false ->
  snd (generateSpeech t w) = length (promises w) /\
  promises (fst (generateSpeech t w)) = promises w ++ [Pending] /\
  isGenerating (fst (generateSpeech t w)) = true /\
  isCancelled (fst (generateSpeech t w)) = false /\
  utterance (fst (generateSpeech t w)) = Some (length (utterances w)) /\
  utterances (fst (generateSpeech t w))
    = utterances w ++ [mkUtterance t None 1 (length (promises w))] /\
  player (fst (generateSpeech t w)) = Some (length (players w)) /\
  players (fst (generateSpeech t w))
    = players w ++
      [mkPlayer 1 false None false 0 [] false t (length (promises w))] /\
  synth (fst (generateSpeech t w))
    = Some (mkSynth (voices sy) true (spoken sy) (cancels sy)) /\
  audioContext (fst (generateSpeech t w))
    = Some (mkAudioContext (closes ac) (S (resuming ac))).
Proof.
  intros Hw Hg Hs Ha Hd Hr.
  unfold generateSpeech, executor, new_promise. rewrite Hw, Hg. simpl.
  rewrite Hs, Ha, Hd. simpl. rewrite Hr. simpl. repeat split.
Qed.

(** X8.  Once the end or the error callback of any utterance has run, one of
    an earlier request included, the next [generateSpeech] is accepted: its
    promise is pending, [isGenerating] is set and [isCancelled] cleared, and
    a new utterance (no voice, rate 1) and a new player (rate 1) are the
    current ones. *)
Theorem accepted_after_utterance_callback
    (w : World) (u : nat) (ut : Utterance) (s : Step) (t : string) :
  reachable w -> utterances w !! u = Some ut -> resumeThrows w = false ->
  (s = EvUtteranceEnd u \/ exists code, s = EvUtteranceError u code) ->
  promises (fst (generateSpeech t (step s w)))
    !! snd (generateSpeech t (step s w)) = Some Pending /\
  isGenerating (fst (generateSpeech t (step s w))) = true /\
  isCancelled (fst (generateSpeech t (step s w))) = false /\
  utterance (fst (generateSpeech t (step s w))) = Some (length (utterances w)) /\
  utterances (fst (generateSpeech t (step s w))) !! length (utterances w)
    = Some (mkUtterance t None 1 (snd (generateSpeech t (step s w)))) /\
  player (fst (generateSpeech t (step s w))) = Some (length (players w)) /\
  players (fst (generateSpeech t (step s w))) !! length (players w)
    = Some (mkPlayer 1 false None false 0 [] false t
              (snd (generateSpeech t (step s w)))).
Proof.
  intros Hr Hu Hres Hs.
  assert (utterances w <> []) as Hne by (intros E; by rewrite E in Hu).
  destruct (g_made _ (reachable_grounded w Hr) (or_intror Hne))
    as (Hw & [sy Hsy] & _).
  destruct (g_window _ (reachable_grounded w Hr) Hw)
    as (_ & [ac Hac] & [d Hd]).
  assert (hasWindow (step s w) = true /\ isGenerating (step s w) = false /\
          synth (step s w) = Some sy /\ audioContext (step s w) = Some ac /\
          mediaStreamDestination (step s w) = Some d /\
          resumeThrows (step s w) = false /\
          utterances (step s w) = utterances w /\
          players (step s w) = players w) as (? & ? & ? & ? & ? & ? & Eu & Ep).
  { destruct Hs as [->|[code ->]]; simpl;
      unfold utterance_onend, utterance_onerror, reject, settle;
      rewrite Hu; simpl; destruct (isCancelled w); done. }
  destruct (generateSpeech_accepted t (step s w) sy ac d)
    as (-> & -> & ? & ? & -> & -> & -> & -> & _); try done.
  rewrite Eu, Ep. repeat split; try done; by apply list_lookup_middle.
Qed.

Lemma accepted_after_utterance_callback_witness :
  promises (fst (generateSpeech "next" (step (EvUtteranceError 0 "network")
                                          first_request)))
    !! snd (generateSpeech "next" (step (EvUtteranceError 0 "network")
                                     first_request))
  = Some Pending.
Proof.
  assert (reachable first_request) as Hr
    by (by exists browser, [CallGenerateSpeech "hi"]).
  assert (utterances first_request !! 0 = Some (mkUtterance "hi" None 1 0))
    as Hu by (vm_compute; reflexivity).
  assert (resumeThrows first_request = false) as Hres
    by (vm_compute; reflexivity).
  exact (proj1 (accepted_after_utterance_callback first_request 0 _
                  (EvUtteranceError 0 "network") "next" Hr Hu Hres
                  (or_intror (ex_intro _ "network" eq_refl)))).
Defined.

(** X9.  An accepted request has its utterance spoken twice when both the
    [voiceschanged] handler and the [then] callback of [resume()] run: with
    the voice [voices[0]] both times when the handler runs first, and first
    with no voice, then with [voices[0]], when the [then] callback runs
    first. *)
Theorem utterance_spoken_twice
    (t : string) (w : World) (sy : Synth) (ac : AudioContext) (d : unit)
    (v : Voice) (vs : list Voice) :
  hasWindow w = true -> isGenerating w = false ->
  synth w = Some sy -> audioContext w = Some ac ->
  mediaStreamDestination w = Some d -> resumeThrows w = false ->
  (spoken <$> synth (run [EvVoicesChanged (v :: vs); EvResumeThen]
                       (fst (generateSpeech t w))))
    = Some (spoken sy ++ [(length (utterances w), Some v);
                          (length (utterances w), Some v)]) /\
  (spoken <$> synth (run [EvResumeThen; EvVoicesChanged (v :: vs)]
                       (fst (generateSpeech t w))))
    = Some (spoken sy ++ [(length (utterances w), None);
                          (length (utterances w), Some v)]).
Proof.
  intros Hw Hg Hs Ha Hd Hr.
  destruct (generateSpeech_accepted t w sy ac d Hw Hg Hs Ha Hd Hr)
    as (_ & _ & _ & _ & Hu & Hus & _ & _ & Hsy & Hac).
  split; simpl; unfold synth_voiceschanged, resume_then, speak; simpl;
    rewrite ?Hsy, ?Hac, ?Hu; simpl; rewrite ?Hsy, ?Hac, ?Hu, ?Hus; simpl;
    rewrite ?Hsy, ?Hac, ?Hu, ?Hus; simpl;
    rewrite ?list_lookup_alter_eq, ?list_lookup_middle by done; simpl;
    rewrite <- ?app_assoc; done.
Qed.

Lemma utterance_spoken_twice_witness :
  (spoken <$> synth (run [EvVoicesChanged ("en-GB" :: []); EvResumeThen]
                       (fst (generateSpeech "hi" (construct browser)))))
    = Some (spoken (mkSynth ["en-US"] false [] 0) ++
            [(length (utterances (construct browser)), Some "en-GB");
             (length (utterances (construct browser)), Some "en-GB")]).
Proof.
  exact (proj1 (utterance_spoken_twice "hi" (construct browser)
                  (mkSynth ["en-US"] false [] 0) (mkAudioContext 0 0) tt
                  "en-GB" [] eq_refl eq_refl eq_refl eq_refl eq_refl eq_refl)).
Defined.

(** X10.  An accepted request starts with [isCancelled] cleared, whatever
    [stop()] left behind, and the end of its utterance does not settle it:
    after [onend] the promise is still pending and [isGenerating] is false,
    so that a [stop()] after the end of speech no longer asks for
    cancellation. *)
Theorem end_of_speech_leaves_pending
    (t : string) (w : World) (sy : Synth) (ac : AudioContext) (d : unit) :
  hasWindow w = true -> isGenerating w = false ->
  synth w = Some sy -> audioContext w = Some ac ->
  mediaStreamDestination w = Some d -> resumeThrows w = false ->
  let u := length (utterances w) in
  let w1 := utterance_onend u (fst (generateSpeech t w)) in
  isCancelled (fst (generateSpeech t w)) = false /\
  promises w1 !! snd (generateSpeech t w) = Some Pending /\
  isGenerating w1 = false /\
  isCancelled (fst (stop w1)) = false /\
  promises (utterance_onend u (fst (stop w1))) !! snd (generateSpeech t w)
    = Some Pending.
Proof.
  intros Hw Hg Hs Ha Hd Hr u w1.
  destruct (generateSpeech_accepted t w sy ac d Hw Hg Hs Ha Hd Hr)
    as (Ep & Hps & _ & Hc & _ & Hus & _).
  assert (utterances (fst (generateSpeech t w)) !! u
          = Some (mkUtterance t None 1 (length (promises w)))) as Hu
    by (rewrite Hus; by apply list_lookup_middle).
  assert (isGenerating w1 = false /\ isCancelled w1 = false /\
          promises w1 = promises w ++ [Pending] /\
          utterances w1 = utterances (fst (generateSpeech t w)))
    as (Hg1 & Hc1 & Hp1 & Hu1).
  { unfold w1, utterance_onend. rewrite Hu. simpl. rewrite Hc. done. }
  assert (isCancelled (fst (stop w1)) = false /\
          promises (fst (stop w1)) = promises w1 /\
          utterances (fst (stop w1)) = utterances w1) as (Hc2 & Hp2 & Hu2).
  { unfold stop, on_player. rewrite Hg1. destruct (player w1); done. }
  rewrite Ep. repeat split; try done.
  - rewrite Hp1. by apply list_lookup_middle.
  - generalize dependent (fst (stop w1)). intros w2 Hc2 Hp2 Hu2.
    unfold utterance_onend. rewrite Hu2, Hu1, Hu. simpl. rewrite Hc2. simpl.
    rewrite Hp2, Hp1. by apply list_lookup_middle.
Qed.

Lemma end_of_speech_leaves_pending_witness :
  promises (utterance_onend (length (utterances (construct browser)))
              (fst (generateSpeech "hi" (construct browser))))
    !! snd (generateSpeech "hi" (construct browser)) = Some Pending.
Proof.
  exact (proj1 (proj2 (end_of_speech_leaves_pending "hi" (construct browser)
                  (mkSynth ["en-US"] false [] 0) (mkAudioContext 0 0) tt
                  eq_refl eq_refl eq_refl eq_refl eq_refl eq_refl))).
Defined.

(** X11.  When [audioContext.resume()] throws, the promise is rejected with
    'Failed to set up audio routing for SpeechSynthesis.', but the request
    stays set up: [isGenerating] remains set, so that the next call is
    rejected as already in progress; the [voiceschanged] handler is in place
    and still speaks the utterance; and only an utterance callback clears the
    flag. *)
Theorem routing_failure_keeps_request
    (t t' : string) (w : World) (sy : Synth) (ac : AudioContext) (d : unit)
    (v : Voice) (vs : list Voice) :
  hasWindow w = true -> isGenerating w = false ->
  synth w = Some sy -> audioContext w = Some ac ->
  mediaStreamDestination w = Some d -> resumeThrows w = true ->
  let w1 := fst (generateSpeech t w) in
  promises w1 !! snd (generateSpeech t w) = Some (Rejected RoutingFailed) /\
  isGenerating w1 = true /\
  promises (fst (generateSpeech t' w1)) !! snd (generateSpeech t' w1)
    = Some (Rejected AlreadyInProgress) /\
  (spoken <$> synth (synth_voiceschanged (v :: vs) w1))
    = Some (spoken sy ++ [(length (utterances w), Some v)]) /\
  isGenerating (utterance_onend (length (utterances w)) w1) = false.
Proof.
  intros Hw Hg Hs Ha Hd Hr w1.
  assert (snd (generateSpeech t w) = length (promises w) /\
          promises w1
            = promises w ++ [Rejected RoutingFailed] /\
          hasWindow w1 = true /\ isGenerating w1 = true /\
          utterance w1 = Some (length (utterances w)) /\
          utterances w1
            = utterances w ++ [mkUtterance t None 1 (length (promises w))] /\
          synth w1 = Some (mkSynth (voices sy) true (spoken sy) (cancels sy)))
    as (Ep & Hps & Hw1 & Hg1 & Hu & Hus & Hsy).
  { unfold w1, generateSpeech, executor, new_promise, reject, settle.
    rewrite Hw, Hg. simpl. rewrite Hs, Ha, Hd. simpl. rewrite Hr. simpl.
    rewrite alter_app_r_alt by done. rewrite Nat.sub_diag.
    repeat split; done. }
  rewrite Ep. repeat split.
  - rewrite Hps. by apply list_lookup_middle.
  - done.
  - unfold generateSpeech. rewrite Hw1, Hg1. simpl. by apply list_lookup_middle.
  - unfold synth_voiceschanged, speak. rewrite Hsy. simpl. rewrite Hu. simpl.
    rewrite Hus, list_lookup_alter_eq, list_lookup_middle by done. done.
  - unfold utterance_onend. rewrite Hus, list_lookup_middle by done. simpl.
    by destruct (isCancelled w1).
Qed.

(** A browser in which [audioContext.resume()] throws. *)
Lemma routing_failure_keeps_request_witness :
  promises (fst (generateSpeech "hi"
                   (construct (mkPlatform true (Some ["en-US"]) true))))
    !! snd (generateSpeech "hi"
              (construct (mkPlatform true (Some ["en-US"]) true)))
  = Some (Rejected RoutingFailed).
Proof.
  exact (proj1 (routing_failure_keeps_request "hi" "again"
                  (construct (mkPlatform true (Some ["en-US"]) true))
                  (mkSynth ["en-US"] false [] 0) (mkAudioContext 0 0) tt
                  "en-US" [] eq_refl eq_refl eq_refl eq_refl eq_refl eq_refl)).
Defined.

(** * The chat store *)

Lemma updateLastMessage_snoc ms m hi c :
  ChatStore.updateLastMessage c (ChatStore.mkChatState (ms ++ [m]) hi)
  = ChatStore.mkChatState
      (ms ++ [ChatStore.mkMessage (ChatStore.role m) c]) hi.
Proof.
  unfold ChatStore.updateLastMessage. simpl. f_equal.
  apply list_eq. intros i. rewrite list_lookup_imap, length_app. simpl.
  destruct (decide (i < length ms)) as [Hi|Hi].
  - rewrite !lookup_app_l by done.
    destruct (ms !! i); simpl; [|done]. case_decide; [lia|done].
  - rewrite !lookup_app_r by lia.
    destruct (i - length ms) as [|j] eqn:E; simpl; [|done].
    case_decide; [done|lia].
Qed.

(** X12.  [updateLastMessage(content)] replaces the content of the last
    message and nothing else: the messages before it, the role of the last
    one, the number of messages and [hasInitialized] are kept; on an empty
    list it changes nothing. *)
Theorem updateLastMessage_last
    (ms : list ChatStore.Message) (m : ChatStore.Message) (hi : bool)
    (c : string) (st : ChatStore.ChatState) :
  ChatStore.updateLastMessage c (ChatStore.mkChatState (ms ++ [m]) hi)
    = ChatStore.mkChatState
        (ms ++ [ChatStore.mkMessage (ChatStore.role m) c]) hi /\
  ChatStore.updateLastMessage c (ChatStore.mkChatState [] hi)
    = ChatStore.mkChatState [] hi /\
  length (ChatStore.messages (ChatStore.updateLastMessage c st))
    = length (ChatStore.messages st) /\
  ChatStore.role <$> ChatStore.messages (ChatStore.updateLastMessage c st)
    = ChatStore.role <$> ChatStore.messages st /\
  ChatStore.hasInitialized (ChatStore.updateLastMessage c st)
    = ChatStore.hasInitialized st.
Proof.
  split; [apply updateLastMessage_snoc|]. split; [done|].
  split; [apply length_imap|]. split; [|done].
  destruct st as [msgs h]. simpl.
  destruct msgs as [|m0 msgs'] using rev_ind; [done|].
  pose proof (updateLastMessage_snoc msgs' m0 h c) as E.
  unfold ChatStore.updateLastMessage in E. simpl in E.
  injection E as ->. by rewrite !fmap_app.
Qed.

(** X13.  Streaming into the last message: [updateLastMessage(c)] after
    [addMessage(m)] is [addMessage] of [m] with content [c], and of two
    updates in a row the second one wins. *)
Theorem updateLastMessage_streams
    (m : ChatStore.Message) (c c' : string) (st : ChatStore.ChatState) :
  ChatStore.updateLastMessage c (ChatStore.addMessage m st)
    = ChatStore.addMessage (ChatStore.mkMessage (ChatStore.role m) c) st /\
  ChatStore.updateLastMessage c' (ChatStore.updateLastMessage c st)
    = ChatStore.updateLastMessage c' st.
Proof.
  destruct st as [msgs h]. split.
  - unfold ChatStore.addMessage. simpl. apply updateLastMessage_snoc.
  - destruct msgs as [|m0 msgs'] using rev_ind; [done|].
    by rewrite !updateLastMessage_snoc.
Qed.

(** * The global key handler *)

Lemma isArrow_true k :
  isArrow k = true <->
  k = "ArrowLeft" \/ k = "ArrowRight" \/ k = "ArrowUp" \/ k = "ArrowDown".
Proof.
  unfold isArrow. rewrite bool_decide_eq_true, !elem_of_cons, elem_of_nil.
  tauto.
Qed.

Lemma bothArrows_true (s : gset string) :
  bothArrows s = true <-> "ArrowLeft" ∈ s /\ "ArrowRight" ∈ s.
Proof.
  unfold bothArrows. by rewrite andb_true_iff, !bool_decide_eq_true.
Qed.

Ltac key_cases :=
  repeat match goal with
  | |- context [bool_decide (?k = ?s)] =>
      destruct (bool_decide_reflect (k = s)); simplify_eq/=
  | H : context [bool_decide (?k = ?s)] |- _ =>
      destruct (bool_decide_reflect (k = s)); simplify_eq/=
  end.

(** X14.  The variant is toggled exactly by the key-down of an arrow key
    that leaves both [ArrowLeft] and [ArrowRight] pressed: the key is one of
    the two and the other is held, or both are held and any arrow goes down.
    The same holds in both versions of the handler. *)
Theorem toggleVariant_iff_chord (event : KeyboardEvent) (pressed : gset string) :
  (toggleVariant ∈ snd (GlobalKeyHandler.handleKeyDown event pressed) <->
   isArrow (key event) = true /\
   (key event = "ArrowLeft" \/ "ArrowLeft" ∈ pressed) /\
   (key event = "ArrowRight" \/ "ArrowRight" ∈ pressed)) /\
  (toggleVariant ∈ snd (GlobalKeyHandlerCtrl.handleKeyDown event pressed) <->
   isArrow (key event) = true /\
   (key event = "ArrowLeft" \/ "ArrowLeft" ∈ pressed) /\
   (key event = "ArrowRight" \/ "ArrowRight" ∈ pressed)).
Proof.
  assert (bothArrows ({[key event]} ∪ pressed) = true <->
          (key event = "ArrowLeft" \/ "ArrowLeft" ∈ pressed) /\
          (key event = "ArrowRight" \/ "ArrowRight" ∈ pressed)) as Hboth.
  { rewrite bothArrows_true, !elem_of_union, !elem_of_singleton.
    intuition congruence. }
  unfold GlobalKeyHandler.handleKeyDown, GlobalKeyHandlerCtrl.handleKeyDown.
  destruct event as [k c]. simpl in *.
  destruct (isArrow k) eqn:Ha, (bothArrows ({[k]} ∪ pressed)) eqn:Hb, c;
    simpl; key_cases;
    rewrite ?elem_of_app, ?elem_of_cons, ?elem_of_nil;
    (split; split).
  all: try (intros [Ha' H];
            first [ discriminate Ha'
                  | apply Hboth in H; discriminate H
                  | tauto ]).
  all: try (intros H;
            first [ split; [done|by apply Hboth]
                  | exfalso; intuition discriminate ]).
Qed.

Lemma toggleVariant_iff_chord_witness :
  toggleVariant
  ∈ snd (GlobalKeyHandler.handleKeyDown (mkKeyboardEvent "ArrowRight" false)
           {["ArrowLeft"]}).
Proof.
  apply (proj1 (toggleVariant_iff_chord (mkKeyboardEvent "ArrowRight" false)
                  {["ArrowLeft"]})).
  split; [reflexivity|]. split; [right; by apply elem_of_singleton|by left].
Defined.

(** X15.  A key that is not an arrow is not recorded and its default action
    is not prevented.  The first version then makes a call only for a
    bracket: [cyclePreviousPreset] for "[" and [cycleNextPreset] for "]";
    the second version makes no call at all, for the brackets either. *)
Theorem other_keys_pass (event : KeyboardEvent) (pressed : gset string) :
  isArrow (key event) = false ->
  GlobalKeyHandler.handleKeyDown event pressed
    = (pressed,
       if bool_decide (key event = "[") then [cyclePreviousPreset]
       else if bool_decide (key event = "]") then [cycleNextPreset]
       else []) /\
  GlobalKeyHandlerCtrl.handleKeyDown event pressed = (pressed, []).
Proof.
  intros Ha.
  unfold GlobalKeyHandler.handleKeyDown, GlobalKeyHandlerCtrl.handleKeyDown.
  rewrite Ha. simpl. split; [|done]. key_cases; congruence.
Qed.

Lemma other_keys_pass_witness :
  GlobalKeyHandler.handleKeyDown (mkKeyboardEvent "]" false) {["ArrowUp"]}
    = ({["ArrowUp"]},
       if bool_decide (key (mkKeyboardEvent "]" false) = "[")
       then [cyclePreviousPreset]
       else if bool_decide (key (mkKeyboardEvent "]" false) = "]")
            then [cycleNextPreset]
       else []) /\
  GlobalKeyHandlerCtrl.handleKeyDown (mkKeyboardEvent "]" false) {["ArrowUp"]}
    = ({["ArrowUp"]}, []).
Proof.
  apply (other_keys_pass (mkKeyboardEvent "]" false) {["ArrowUp"]}).
  vm_compute. reflexivity.
Defined.

(** X16.  Key-down then key-up of the same key leaves the set of pressed
    keys as it was without that key, in both versions; so a key that was not
    pressed before is not pressed after, and holding a key down (repeated
    key-down events) records it once. *)
Theorem keydown_keyup (event : KeyboardEvent) (pressed : gset string) :
  GlobalKeyHandler.handleKeyUp event
    (fst (GlobalKeyHandler.handleKeyDown event pressed))
    = pressed ∖ {[key event]} /\
  GlobalKeyHandlerCtrl.handleKeyUp event
    (fst (GlobalKeyHandlerCtrl.handleKeyDown event pressed))
    = pressed ∖ {[key event]} /\
  (key event ∉ pressed ->
   GlobalKeyHandler.handleKeyUp event
     (fst (GlobalKeyHandler.handleKeyDown event pressed)) = pressed) /\
  fst (GlobalKeyHandler.handleKeyDown event
         (fst (GlobalKeyHandler.handleKeyDown event pressed)))
    = fst (GlobalKeyHandler.handleKeyDown event pressed).
Proof.
  unfold GlobalKeyHandler.handleKeyUp, GlobalKeyHandlerCtrl.handleKeyUp,
    GlobalKeyHandler.handleKeyDown, GlobalKeyHandlerCtrl.handleKeyDown.
  destruct (isArrow (key event)) eqn:Ha; simpl; rewrite ?Ha; simpl;
    repeat split; try done; try intros Hk; apply set_eq; intros k;
    rewrite ?elem_of_difference, ?elem_of_union, ?elem_of_singleton;
    intuition congruence.
Qed.

Lemma keydown_keyup_witness :
  GlobalKeyHandler.handleKeyUp (mkKeyboardEvent "ArrowLeft" false)
    (fst (GlobalKeyHandler.handleKeyDown (mkKeyboardEvent "ArrowLeft" false)
            {["ArrowRight"]}))
  = {["ArrowRight"]}.
Proof.
  apply (keydown_keyup (mkKeyboardEvent "ArrowLeft" false) {["ArrowRight"]}).
  simpl. rewrite elem_of_singleton. discriminate.
Defined.

Lemma pressedAfter_snoc evs ev pressed :
  pressedAfter (evs ++ [ev]) pressed
  = match ev with
    | KeyDown event =>
        fst (GlobalKeyHandler.handleKeyDown event (pressedAfter evs pressed))
    | KeyUp event => GlobalKeyHandler.handleKeyUp event (pressedAfter evs pressed)
    end.
Proof. unfold pressedAfter. by rewrite fold_left_app. Qed.

(** X17.  Only arrow keys are ever recorded: after any sequence of key-down
    and key-up events, a key in the set of pressed keys is an arrow key or
    was in the set at the start.  From the empty set of a mounted component
    the set holds arrow keys only. *)
Theorem only_arrows_recorded
    (evs : list KeyEvent) (pressed : gset string) (k : string) :
  k ∈ pressedAfter evs pressed -> isArrow k = true \/ k ∈ pressed.
Proof.
  induction evs as [|ev evs IH] using rev_ind; [by right|].
  rewrite pressedAfter_snoc. destruct ev as [event|event].
  - unfold GlobalKeyHandler.handleKeyDown.
    destruct (isArrow (key event)) eqn:Ha; simpl; [|done].
    rewrite elem_of_union, elem_of_singleton. intros [->|?]; auto.
  - unfold GlobalKeyHandler.handleKeyUp. rewrite elem_of_difference.
    intros [? _]. auto.
Qed.

Lemma only_arrows_recorded_witness :
  isArrow "ArrowUp" = true \/ "ArrowUp" ∈ (∅ : gset string).
Proof.
  apply (only_arrows_recorded
           [KeyDown (mkKeyboardEvent "a" false);
            KeyDown (mkKeyboardEvent "ArrowUp" true);
            KeyUp (mkKeyboardEvent "a" false)] ∅ "ArrowUp").
  vm_compute. reflexivity.
Defined.

(** X18.  In the second version Ctrl turns the arrows over to the presets:
    with Ctrl held a key-down calls no theme and no camera action, and Up and
    Down cycle nothing; without Ctrl it calls no preset action. *)
Theorem ctrl_selects_presets
    (event : KeyboardEvent) (pressed : gset string) (c : StoreCall) :
  c ∈ snd (GlobalKeyHandlerCtrl.handleKeyDown event pressed) ->
  (ctrlKey event = true ->
   c = preventDefault \/ c = toggleVariant \/
   (c = cyclePreviousPreset /\ key event = "ArrowLeft") \/
   (c = cycleNextPreset /\ key event = "ArrowRight")) /\
  (ctrlKey event = false ->
   c <> cyclePreviousPreset /\ c <> cycleNextPreset).
Proof.
  unfold GlobalKeyHandlerCtrl.handleKeyDown.
  destruct (isArrow (key event)), (ctrlKey event),
    (bothArrows ({[key event]} ∪ pressed)); simpl; key_cases;
    rewrite ?elem_of_cons, ?elem_of_nil;
    intuition (try discriminate; try congruence).
Qed.

Lemma ctrl_selects_presets_witness :
  cycleNextPreset = preventDefault \/ cycleNextPreset = toggleVariant \/
  (cycleNextPreset = cyclePreviousPreset /\
   key (mkKeyboardEvent "ArrowRight" true) = "ArrowLeft") \/
  (cycleNextPreset = cycleNextPreset /\
   key (mkKeyboardEvent "ArrowRight" true) = "ArrowRight").
Proof.
  apply (ctrl_selects_presets (mkKeyboardEvent "ArrowRight" true) ∅
           cycleNextPreset); [|reflexivity].
  vm_compute. apply list_elem_of_In. simpl. tauto.
Defined.

(** X19.  Without Ctrl the two versions differ in the brackets only: on every
    key-down the first version records what the second records and makes the
    calls of the second followed by its call for a bracket; key-up is the
    same. *)
Theorem versions_agree_without_ctrl
    (event : KeyboardEvent) (pressed : gset string) :
  ctrlKey event = false ->
  GlobalKeyHandler.handleKeyDown event pressed
    = (fst (GlobalKeyHandlerCtrl.handleKeyDown event pressed),
       snd (GlobalKeyHandlerCtrl.handleKeyDown event pressed) ++
       (if bool_decide (key event = "[") then [cyclePreviousPreset] else []) ++
       (if bool_decide (key event = "]") then [cycleNextPreset] else [])) /\
  GlobalKeyHandler.handleKeyUp event pressed
    = GlobalKeyHandlerCtrl.handleKeyUp event pressed.
Proof.
  intros Hc. split; [|done].
  unfold GlobalKeyHandler.handleKeyDown, GlobalKeyHandlerCtrl.handleKeyDown.
  rewrite Hc. by destruct (isArrow (key event)).
Qed.

Lemma versions_agree_without_ctrl_witness :
  GlobalKeyHandler.handleKeyUp (mkKeyboardEvent "ArrowLeft" false) ∅
  = GlobalKeyHandlerCtrl.handleKeyUp (mkKeyboardEvent "ArrowLeft" false) ∅.
Proof.
  exact (proj2 (versions_agree_without_ctrl
                  (mkKeyboardEvent "ArrowLeft" false) ∅ eq_refl)).
Defined.

(** The two versions record the same keys, with or without Ctrl. *)
Lemma handleKeyDown_records_alike (event : KeyboardEvent) (pressed : gset string) :
  fst (GlobalKeyHandler.handleKeyDown event pressed)
  = fst (GlobalKeyHandlerCtrl.handleKeyDown event pressed).
Proof.
  unfold GlobalKeyHandler.handleKeyDown, GlobalKeyHandlerCtrl.handleKeyDown.
  by destruct (isArrow (key event)).
Qed.
